(** * Classic games: the game logic of the four engines, and its properties

    The repository holds four React components (Snake, Pacman, Hangman,
    TicTacToe).  Each keeps its game state in [useState] cells and changes it
    in event handlers and timer callbacks.  Here every component becomes a
    record of its state cells and every handler a function from state to
    state.  One handler runs per render, so the values a handler closes over
    are the fields of the state it is applied to.

    Conventions
    - a JS [number] that only ever holds integers is a [Z];
    - a JS array is a [list]; reading past its end gives [undefined];
    - [Math.random] is an oracle: the caller supplies what the draw gave;
    - a loop that needs fuel returns [None] when the fuel runs out, and is
      proved to return with the fuel it is given. *)

From Stdlib Require Import ZArith List Bool Lia String Ascii QArith Qround.
From Stdlib Require Import Uint63 Floats.
From stdpp Require Import base option list gmap strings.

Local Open Scope Z_scope.
Local Open Scope list_scope.

(** ** Board game (src/games/TicTacToe.tsx) *)

Module TicTacToe.

Inductive Player := X | O.

(** A slot of the board array: [null], a mark, or a slot that holds
    [undefined] (a hole left by a write past the end of the array; every
    operation of the component treats a hole and [undefined] alike). *)
Inductive Cell := Null | Mark (p : Player) | Undefined.

Inductive Result := Win (p : Player) | Draw.
Inductive GameMode := AI | Human.
Inductive Difficulty := Easy | Medium | Hard.

Record GameStats := mkStats { wins : Z; losses : Z; draws : Z }.

Definition Line : Type := (nat * nat * nat)%type.

Definition WINNING_COMBINATIONS : list Line :=
  [ (0, 1, 2); (3, 4, 5); (6, 7, 8);
    (0, 3, 6); (1, 4, 7); (2, 5, 8);
    (0, 4, 8); (2, 4, 6) ]%nat.

Definition Player_eqb (p q : Player) : bool :=
  match p, q with X, X | O, O => true | _, _ => false end.

(** [===] on the values a slot can hold. *)
Definition Cell_eqb (c d : Cell) : bool :=
  match c, d with
  | Null, Null | Undefined, Undefined => true
  | Mark p, Mark q => Player_eqb p q
  | _, _ => false
  end.

Definition is_null (c : Cell) : bool :=
  match c with Null => true | _ => false end.

(** [squares[i]]: out of range reads [undefined]. *)
Definition read (squares : list Cell) (i : nat) : Cell :=
  default Undefined (squares !! i).

(** [squares[i] = v]: in range the slot is overwritten, past the end the
    array grows and the slots in between are holes. *)
Definition store (squares : list Cell) (i : nat) (v : Cell) : list Cell :=
  if (i <? length squares)%nat then <[i := v]> squares
  else squares ++ replicate (i - length squares) Undefined ++ [v].

(** The [for] loop of [checkWinner]: the first line holding three equal
    marks. *)
Fixpoint first_line (squares : list Cell) (lines : list Line)
  : option (Player * Line) :=
  match lines with
  | [] => None
  | (a, b, c) :: rest =>
      match read squares a with
      | Mark p =>
          if Cell_eqb (read squares a) (read squares b)
             && Cell_eqb (read squares a) (read squares c)
          then Some (p, (a, b, c))
          else first_line squares rest
      | _ => first_line squares rest
      end
  end.

Definition checkWinner (squares : list Cell) : option Result * option Line :=
  match first_line squares WINNING_COMBINATIONS with
  | Some (p, line) => (Some (Win p), Some line)
  | None =>
      (if forallb (fun square => negb (is_null square)) squares
       then Some Draw else None, None)
  end.

(** [squares.reduce((acc, cell, idx) => cell === null ? [...acc, idx] : acc, [])] *)
Definition getEmptySquares (squares : list Cell) : list nat :=
  fold_left
    (fun acc '(idx, cell) => if is_null cell then acc ++ [idx] else acc)
    (combine (seq 0 (length squares)) squares) [].

(** [bestScore] starts at [-Infinity] or [Infinity]. *)
Inductive Num := NegInf | Fin (z : Z) | PosInf.

Definition Math_max (a b : Num) : Num :=
  match a, b with
  | PosInf, _ | _, PosInf => PosInf
  | NegInf, n | n, NegInf => n
  | Fin x, Fin y => Fin (Z.max x y)
  end.

Definition Math_min (a b : Num) : Num :=
  match a, b with
  | NegInf, _ | _, NegInf => NegInf
  | PosInf, n | n, PosInf => n
  | Fin x, Fin y => Fin (Z.min x y)
  end.

(** [a > b] *)
Definition Num_gt (a b : Num) : bool :=
  match a, b with
  | NegInf, _ | _, PosInf => false
  | _, NegInf | PosInf, _ => true
  | Fin x, Fin y => y <? x
  end.

(** The search works on one array that it writes and restores: a
    computation takes the array and gives back a result with the array as it
    left it, or [None] when the fuel is spent. *)
Definition Search (A : Type) : Type := list Cell -> option (A * list Cell).

#[global] Instance Search_ret : MRet Search :=
  fun A a squares => Some (a, squares).

#[global] Instance Search_bind : MBind Search :=
  fun A B k m squares =>
    match m squares with
    | Some (a, squares') => k a squares'
    | None => None
    end.

Definition current : Search (list Cell) := fun squares => Some (squares, squares).

Definition assign (i : nat) (v : Cell) : Search unit :=
  fun squares => Some (tt, store squares i v).

Definition out_of_fuel {A : Type} : Search A := fun _ => None.

(** [for (const move of moves) { acc = body(move, acc) }] *)
Fixpoint for_of {A : Type} (moves : list nat) (body : nat -> A -> Search A)
  (acc : A) : Search A :=
  match moves with
  | [] => mret acc
  | move :: rest => acc' ← body move acc; for_of rest body acc'
  end.

Fixpoint minimax_fuel (fuel : nat) (depth : Z) (isMaximizing : bool)
  : Search Num :=
  match fuel with
  | 0%nat => out_of_fuel
  | S fuel' =>
      squares ← current;
      match fst (checkWinner squares) with
      | Some (Win O) => mret (Fin (10 - depth))
      | Some (Win X) => mret (Fin (depth - 10))
      | Some Draw => mret (Fin 0)
      | None =>
          let emptySquares := getEmptySquares squares in
          if isMaximizing then
            for_of emptySquares
              (fun move bestScore =>
                 _ ← assign move (Mark O);
                 score ← minimax_fuel fuel' (depth + 1) false;
                 _ ← assign move Null;
                 mret (Math_max bestScore score))
              NegInf
          else
            for_of emptySquares
              (fun move bestScore =>
                 _ ← assign move (Mark X);
                 score ← minimax_fuel fuel' (depth + 1) true;
                 _ ← assign move Null;
                 mret (Math_min bestScore score))
              PosInf
      end
  end.

(** Every level of the recursion fills one empty square, so one more unit
    of fuel than there are empty squares is enough (lemma
    [minimax_value]). *)
Definition minimax (squares : list Cell) (depth : Z) (isMaximizing : bool)
  : option (Num * list Cell) :=
  minimax_fuel (S (length (getEmptySquares squares))) depth isMaximizing squares.

(** What the two uses of [Math.random] in [getAIMove] gave: whether the
    draw was below 0.3, and the integer [Math.floor(Math.random() * n)],
    which lies below [n] (the oracle's number is taken modulo [n]). *)
Record Random := mkRandom { below_03 : bool; pick : nat }.

Definition random_index (rnd : Random) (n : nat) : nat := (pick rnd mod n)%nat.

Definition is_easy (d : Difficulty) : bool :=
  match d with Easy => true | _ => false end.
Definition is_medium (d : Difficulty) : bool :=
  match d with Medium => true | _ => false end.

(** [difficulty] is a state cell the function closes over.  The result is
    [None] where the source returns [undefined] (no empty square). *)
Definition getAIMove_fuel (fuel : nat) (difficulty : Difficulty) (rnd : Random)
  : Search (option nat) :=
  squares ← current;
  let emptySquares := getEmptySquares squares in
  if is_easy difficulty then
    mret (emptySquares !! random_index rnd (length emptySquares))
  else if is_medium difficulty && below_03 rnd then
    mret (emptySquares !! random_index rnd (length emptySquares))
  else
    best ← for_of emptySquares
      (fun move '(bestScore, bestMove) =>
         _ ← assign move (Mark O);
         score ← minimax_fuel fuel 0 false;
         _ ← assign move Null;
         mret (if Num_gt score bestScore then (score, Some move)
               else (bestScore, bestMove)))
      (NegInf, emptySquares !! 0%nat);
    mret (snd best).

Definition getAIMove (difficulty : Difficulty) (rnd : Random)
  (squares : list Cell) : option (option nat * list Cell) :=
  getAIMove_fuel (S (length (getEmptySquares squares))) difficulty rnd squares.


(** *** The component's state and handlers

    [showTutorial] and [aiInsult] only choose text to display and are left
    out. *)
Record State := mkState {
  board : list Cell;
  currentPlayer : Player;
  winner : option Result;
  gameMode : GameMode;
  difficulty : Difficulty;
  stats : GameStats;
  winningLine : option Line
}.

Definition initial : State :=
  {| board := replicate 9 Null; currentPlayer := X; winner := None;
     gameMode := Human; difficulty := Medium;
     stats := mkStats 0 0 0; winningLine := None |}.

Definition truthy (c : Cell) : bool :=
  match c with Mark _ => true | _ => false end.

(** [board[index]] where [index] is an integer or [undefined] ([None]): only
    a non-negative integer names a slot of the array.  (Two corners of
    JavaScript are outside the model: an integer from 2^32 - 1 on is no
    array index either, and a value stored under a key that is no array
    index stays readable under that key until the array is next copied.) *)
Definition read_key (squares : list Cell) (index : option Z) : Cell :=
  match index with
  | Some i => if 0 <=? i then read squares (Z.to_nat i) else Undefined
  | None => Undefined
  end.

(** [newBoard[index] = v]: a key that is no array index sets a property of
    the object and leaves its slots as they are. *)
Definition store_key (squares : list Cell) (index : option Z) (v : Cell)
  : list Cell :=
  match index with
  | Some i => if 0 <=? i then store squares (Z.to_nat i) v else squares
  | None => squares
  end.

Definition updateStats (prev : GameStats) (result : Result) : GameStats :=
  match result with
  | Draw => mkStats (wins prev) (losses prev) (draws prev + 1)
  | Win X => mkStats (wins prev + 1) (losses prev) (draws prev)
  | Win O => mkStats (wins prev) (losses prev + 1) (draws prev)
  end.

Definition other (p : Player) : Player :=
  match p with X => O | O => X end.

Definition handleClick (s : State) (index : option Z) : State :=
  if truthy (read_key (board s) index) || bool_decide (is_Some (winner s))
  then s
  else
    let newBoard := store_key (board s) index (Mark (currentPlayer s)) in
    match checkWinner newBoard with
    | (Some gameWinner, line) =>
        {| board := newBoard; currentPlayer := currentPlayer s;
           winner := Some gameWinner; gameMode := gameMode s;
           difficulty := difficulty s;
           stats := updateStats (stats s) gameWinner;
           winningLine := line |}
    | (None, _) =>
        {| board := newBoard; currentPlayer := other (currentPlayer s);
           winner := winner s; gameMode := gameMode s;
           difficulty := difficulty s; stats := stats s;
           winningLine := winningLine s |}
    end.

Definition resetGame (s : State) : State :=
  {| board := replicate 9 Null; currentPlayer := X; winner := None;
     gameMode := gameMode s; difficulty := difficulty s; stats := stats s;
     winningLine := None |}.

Definition resetStats (s : State) : State :=
  {| board := board s; currentPlayer := currentPlayer s; winner := winner s;
     gameMode := gameMode s; difficulty := difficulty s;
     stats := mkStats 0 0 0; winningLine := winningLine s |}.

(** The two [select] elements: set the cell, then [resetGame()]. *)
Definition setMode (s : State) (m : GameMode) : State :=
  resetGame {| board := board s; currentPlayer := currentPlayer s;
               winner := winner s; gameMode := m; difficulty := difficulty s;
               stats := stats s; winningLine := winningLine s |}.

Definition setDifficulty (s : State) (d : Difficulty) : State :=
  resetGame {| board := board s; currentPlayer := currentPlayer s;
               winner := winner s; gameMode := gameMode s; difficulty := d;
               stats := stats s; winningLine := winningLine s |}.

Definition is_ai (m : GameMode) : bool :=
  match m with AI => true | Human => false end.

(** The body of the [useEffect] on [currentPlayer, gameMode]: in AI mode,
    when it is O's turn and nobody has won, the timer callback asks for the
    AI move on a copy of the board and clicks it. *)
Definition aiEffect (s : State) (rnd : Random) : State :=
  if is_ai (gameMode s) && Player_eqb (currentPlayer s) O
     && negb (bool_decide (is_Some (winner s)))
  then
    match getAIMove (difficulty s) rnd (board s) with
    | Some (aiMove, _) => handleClick s (Z.of_nat <$> aiMove)
    | None => s
    end
  else s.

(** A click on a cell button, followed by the effect when the click changed
    [currentPlayer] (the effect's dependency). *)
Definition click (s : State) (index : Z) (rnd : Random) : State :=
  let s' := handleClick s (Some index) in
  if Player_eqb (currentPlayer s') (currentPlayer s) then s'
  else aiEffect s' rnd.

Definition play (s : State) (moves : list (Z * Random)) : State :=
  fold_left (fun st '(index, rnd) => click st index rnd) moves s.

(** *** The reference the hard strategy is compared with

    Written from the description of the strategy, on boards that are never
    changed: the value of a position is the score of its leaf, or the
    largest (AI to move) or smallest (opponent to move) value of the
    positions one move away; the choice is the lowest-numbered empty cell
    whose value is the largest. *)
Definition place (squares : list Cell) (i : nat) (p : Player) : list Cell :=
  <[i := Mark p]> squares.

Definition maximum (default : Z) (l : list Z) : Z :=
  match l with
  | [] => default
  | v :: vs => fold_left Z.max vs v
  end.

Definition minimum (default : Z) (l : list Z) : Z :=
  match l with
  | [] => default
  | v :: vs => fold_left Z.min vs v
  end.

Definition empty_cells (squares : list Cell) : list nat :=
  List.filter (fun i => is_null (read squares i)) (seq 0 (length squares)).

(** [n] bounds the number of moves still to be played; with [n] at least
    the number of empty cells it does not run out. *)
Fixpoint value (n : nat) (squares : list Cell) (d : Z) (aiTurn : bool) : Z :=
  match fst (checkWinner squares) with
  | Some (Win O) => 10 - d
  | Some (Win X) => d - 10
  | Some Draw => 0
  | None =>
      match n with
      | 0%nat => 0
      | S n' =>
          if aiTurn then
            maximum 0 (map (fun i => value n' (place squares i O) (d + 1) false)
                         (empty_cells squares))
          else
            minimum 0 (map (fun i => value n' (place squares i X) (d + 1) true)
                         (empty_cells squares))
      end
  end.

(** The value of the position reached by the AI marking cell [i]: the
    opponent is to move, at search depth 0, and the rest of the game is at
    most as long as the number of empty cells. *)
Definition move_value (squares : list Cell) (i : nat) : Z :=
  value (length (empty_cells squares)) (place squares i O) 0 false.

Definition reference_choice (squares : list Cell) : option nat :=
  let best := maximum 0 (map (move_value squares) (empty_cells squares)) in
  head (List.filter (fun i => move_value squares i =? best) (empty_cells squares)).

(** The indices of the [null] slots of an array whose first slot has index
    [k], in increasing order: what both [getEmptySquares] and [empty_cells]
    compute (lemmas [getEmptySquares_nulls], [empty_cells_nulls]). *)
Fixpoint nulls_from (k : nat) (squares : list Cell) : list nat :=
  match squares with
  | [] => []
  | cell :: rest =>
      if is_null cell then k :: nulls_from (S k) rest
      else nulls_from (S k) rest
  end.

(** One round of the loop of [getAIMove]: a strictly better score takes
    over. *)
Definition better (mv : nat -> Z) (m : nat) (best : Num * option nat)
  : Num * option nat :=
  if Num_gt (Fin (mv m)) (fst best) then (Fin (mv m), Some m) else best.

(** The board of C3: X X _ / _ O _ / _ _ _. *)
Definition row_0_threat : list Cell :=
  [Mark X; Mark X; Null; Null; Mark O; Null; Null; Null; Null].

(** AI mode at difficulty hard, chosen on the initial state. *)
Definition hard_start : State := setDifficulty (setMode initial AI) Hard.

(** Two states of the same game: they differ at most in the statistics and
    the recorded line. *)
Definition same_game (s t : State) : Prop :=
  board s = board t /\ currentPlayer s = currentPlayer t
  /\ winner s = winner t /\ gameMode s = gameMode t
  /\ difficulty s = difficulty t.

(** The nine cell buttons. *)
Definition buttons : list Z := map Z.of_nat (seq 0 9).

(** The game tree of the person's clicks, each answered by the effect, is
    explored to the end: [safe n s] holds when no line of play of at most
    [n] effective clicks from [s] gives X the win, and every such line ends
    the game.  A click on a marked cell changes nothing and is skipped. *)
Fixpoint safe (n : nat) (s : State) : bool :=
  match winner s with
  | Some (Win X) => false
  | Some _ => true
  | None =>
      match n with
      | 0%nat => false
      | S n' =>
          forallb
            (fun index =>
               truthy (read_key (board s) (Some index))
               || safe n' (click s index (mkRandom false 0)))
            buttons
      end
  end.

(** *** More about the board game: events, runs, counting *)

(** What the person can do: click a cell (the draw is for the answer of the
    AI), start a new game, reset the statistics, choose the mode or the
    difficulty. *)
Inductive Event :=
| Click (index : Z) (rnd : Random)
| NewGame
| ClearStats
| SelectMode (m : GameMode)
| SelectDifficulty (d : Difficulty).

Definition step (s : State) (e : Event) : State :=
  match e with
  | Click index rnd => click s index rnd
  | NewGame => resetGame s
  | ClearStats => resetStats s
  | SelectMode m => setMode s m
  | SelectDifficulty d => setDifficulty s d
  end.

Definition run (events : list Event) : State := fold_left step events initial.

(** The clicks the nine cell buttons deliver. *)
Definition on_board (e : Event) : Prop :=
  match e with
  | Click index _ => 0 <= index <= 8
  | _ => True
  end.

(** The number of marks of a player on the board. *)
Definition count_mark (p : Player) (squares : list Cell) : nat :=
  length (List.filter (fun cell => Cell_eqb cell (Mark p)) squares).

(** The three cells of a line all hold the mark of [p]. *)
Definition has_line (squares : list Cell) (p : Player) (line : Line) : Prop :=
  let '(a, b, c) := line in
  read squares a = Mark p /\ read squares b = Mark p
  /\ read squares c = Mark p.

(** The recorded result and line are what [checkWinner] says of the
    board. *)
Definition agrees (s : State) : Prop :=
  winner s = fst (checkWinner (board s))
  /\ winningLine s = snd (checkWinner (board s)).

(** X and O have moved in turn, X first. *)
Definition in_turn (s : State) : Prop :=
  let cx := count_mark X (board s) in
  let co := count_mark O (board s) in
  (cx = co \/ cx = S co)
  /\ (winner s = None ->
      (currentPlayer s = X /\ cx = co) \/ (currentPlayer s = O /\ cx = S co)).

(** The board has nine cells, the recorded result is the board's, and the
    marks alternate. *)
Definition sound (s : State) : Prop :=
  length (board s) = 9%nat /\ agrees s /\ in_turn s.

End TicTacToe.


(** ** Snake (src/games/Snake.tsx) *)

Module Snake.

Record Position := mkPos { x : Z; y : Z }.

Definition GRID_SIZE : Z := 20.
Definition INITIAL_SNAKE : list Position := [mkPos 10 10].
Definition INITIAL_DIRECTION : Position := mkPos 1 0.

Record State := mkState {
  snake : list Position;
  direction : Position;
  food : Position;
  gameOver : bool;
  score : Z;
  isPaused : bool
}.

Definition initial : State :=
  {| snake := INITIAL_SNAKE; direction := INITIAL_DIRECTION;
     food := mkPos 15 15; gameOver := false; score := 0; isPaused := false |}.

(** [a.x === b.x && a.y === b.y] *)
Definition same_cell (a b : Position) : bool :=
  (x a =? x b) && (y a =? y b).

(** The two draws of [generateFood], each [Math.floor(Math.random() *
    GRID_SIZE)]: an integer from 0 to 19 (the oracle's numbers are taken
    modulo the grid size). *)
Definition generateFood (rx ry : nat) : Position :=
  mkPos (Z.of_nat rx mod GRID_SIZE) (Z.of_nat ry mod GRID_SIZE).

Definition resetGame (s : State) (rx ry : nat) : State :=
  {| snake := INITIAL_SNAKE; direction := INITIAL_DIRECTION;
     food := generateFood rx ry; gameOver := false; score := 0;
     isPaused := isPaused s |}.

(** The head one step on; [%] is the remainder that takes the sign of the
    dividend ([Z.rem]). *)
Definition newHead (head dir : Position) : Position :=
  mkPos (Z.rem (x head + x dir + GRID_SIZE) GRID_SIZE)
        (Z.rem (y head + y dir + GRID_SIZE) GRID_SIZE).

(** One tick.  [None] is the TypeError of [currentSnake[0].x] on an empty
    array; [rx], [ry] are the draws [generateFood] makes when the food is
    eaten. *)
Definition moveSnake (s : State) (rx ry : nat) : option State :=
  if gameOver s || isPaused s then Some s
  else
    match snake s with
    | [] => None
    | head :: _ =>
        let h := newHead head (direction s) in
        if existsb (fun segment => same_cell segment h) (snake s) then
          Some {| snake := snake s; direction := direction s; food := food s;
                  gameOver := true; score := score s; isPaused := isPaused s |}
        else
          let newSnake := h :: snake s in
          if same_cell h (food s) then
            Some {| snake := newSnake; direction := direction s;
                    food := generateFood rx ry; gameOver := gameOver s;
                    score := score s + 1; isPaused := isPaused s |}
          else
            Some {| snake := removelast newSnake; direction := direction s;
                    food := food s; gameOver := gameOver s; score := score s;
                    isPaused := isPaused s |}
    end.

Inductive Key := Space | ArrowUp | ArrowDown | ArrowLeft | ArrowRight | OtherKey.

Definition arrow (k : Key) : option Position :=
  match k with
  | ArrowUp => Some (mkPos 0 (-1))
  | ArrowDown => Some (mkPos 0 1)
  | ArrowLeft => Some (mkPos (-1) 0)
  | ArrowRight => Some (mkPos 1 0)
  | _ => None
  end.

Definition handleKeyPress (s : State) (k : Key) : State :=
  match k with
  | Space =>
      {| snake := snake s; direction := direction s; food := food s;
         gameOver := gameOver s; score := score s;
         isPaused := negb (isPaused s) |}
  | _ =>
      match arrow k with
      | Some newDirection =>
          if (x (direction s) =? - x newDirection)
             && (y (direction s) =? - y newDirection)
          then s
          else {| snake := snake s; direction := newDirection; food := food s;
                  gameOver := gameOver s; score := score s;
                  isPaused := isPaused s |}
      | None => s
      end
  end.

(** A unit step along one axis: what [direction] holds. *)
Definition unit_step (d : Position) : Prop :=
  (Z.abs (x d) = 1 /\ y d = 0) \/ (x d = 0 /\ Z.abs (y d) = 1).

Definition in_grid (p : Position) : Prop :=
  0 <= x p < GRID_SIZE /\ 0 <= y p < GRID_SIZE.

Inductive Event :=
| Tick (rx ry : nat)
| KeyDown (k : Key)
| PlayAgain (rx ry : nat).

Definition step (s : State) (e : Event) : option State :=
  match e with
  | Tick rx ry => moveSnake s rx ry
  | KeyDown k => Some (handleKeyPress s k)
  | PlayAgain rx ry => Some (resetGame s rx ry)
  end.

(** The states the component goes through, from the mounted one. *)
Fixpoint run_from (s : State) (events : list Event) : option State :=
  match events with
  | [] => Some s
  | e :: rest =>
      match step s e with
      | Some s' => run_from s' rest
      | None => None
      end
  end.

Definition run (events : list Event) : option State := run_from initial events.

(** What every state on a run satisfies. *)
Definition well_formed (s : State) : Prop :=
  unit_step (direction s)
  /\ exists head rest, snake s = head :: rest /\ in_grid head.

(** A run on which C7 as written fails.  The snake eats three
    times; the third time the new food is drawn on the cell of its tail,
    and the snake turns towards it. *)
Definition food_on_tail_run : list Event :=
  [ Tick 0 0; Tick 0 0; Tick 0 0; Tick 0 0; Tick 0 0;
    KeyDown ArrowDown;
    Tick 0 0; Tick 0 0; Tick 0 0; Tick 0 0; Tick 14 15;
    KeyDown ArrowLeft; Tick 14 14;
    KeyDown ArrowUp; Tick 15 14;
    KeyDown ArrowRight ]%nat.

(** The state that run ends in (lemma [food_on_tail_reached]). *)
Definition tail_food : State :=
  {| snake := [mkPos 14 14; mkPos 14 15; mkPos 15 15; mkPos 15 14];
     direction := mkPos 1 0; food := mkPos 15 14; gameOver := false;
     score := 3; isPaused := false |}.

(** *** More about the snake: what holds of every state on a run *)

(** The direction a key press may not turn into. *)
Definition opposite (d : Position) : Position := mkPos (- x d) (- y d).

(** The segments are distinct cells of the grid, the food is on the grid,
    and the score counts the segments after the first. *)
Definition consistent (s : State) : Prop :=
  NoDup (snake s)
  /\ Forall in_grid (snake s)
  /\ in_grid (food s)
  /\ Z.of_nat (length (snake s)) = score s + 1.

(** A run of ticks, with the draws each would use. *)
Definition ticks (draws : list (nat * nat)) : list Event :=
  map (fun '(rx, ry) => Tick rx ry) draws.

(** Events that do not start a new game. *)
Definition no_restart (e : Event) : Prop :=
  match e with PlayAgain _ _ => False | _ => True end.

End Snake.

(** ** Maze chase (src/games/Pacman.tsx) *)

Module Pacman.

Record Position := mkPos { x : Z; y : Z }.
Inductive Direction := up | down | left | right.

Definition GRID_SIZE : nat := 15.

Definition INITIAL_PACMAN : Position := mkPos 7 11.
Definition INITIAL_GHOSTS : list Position :=
  [mkPos 1 1; mkPos 13 1; mkPos 1 13; mkPos 13 13].

(** [Array.from({ length: GRID_SIZE }, (_, i) => f(i))] *)
Definition Array_from {A : Type} (n : nat) (f : Z -> A) : list A :=
  map (fun i => f (Z.of_nat i)) (seq 0 n).

Definition WALLS : list Position :=
  Array_from GRID_SIZE (fun i => mkPos i 0)
  ++ Array_from GRID_SIZE (fun i => mkPos i (Z.of_nat GRID_SIZE - 1))
  ++ Array_from GRID_SIZE (fun i => mkPos 0 i)
  ++ Array_from GRID_SIZE (fun i => mkPos (Z.of_nat GRID_SIZE - 1) i)
  ++ [ mkPos 3 3; mkPos 4 3; mkPos 5 3;
       mkPos 9 3; mkPos 10 3; mkPos 11 3;
       mkPos 3 11; mkPos 4 11; mkPos 5 11;
       mkPos 9 11; mkPos 10 11; mkPos 11 11;
       mkPos 7 5; mkPos 7 6; mkPos 7 7;
       mkPos 7 9; mkPos 7 8 ].

Record State := mkState {
  pacman : Position;
  ghosts : list Position;
  direction : Direction;
  score : Z;
  dots : list Position;
  gameOver : bool;
  gameWon : bool
}.

Definition same_cell (a b : Position) : bool :=
  (x a =? x b) && (y a =? y b).

Definition isWall (pos : Position) : bool :=
  existsb (fun wall => same_cell wall pos) WALLS.

(** The two nested loops of [initializeDots], x outermost, both from 1 to
    [GRID_SIZE - 2]. *)
Definition initializeDots : list Position :=
  flat_map
    (fun cx =>
       flat_map
         (fun cy =>
            let p := mkPos (Z.of_nat cx) (Z.of_nat cy) in
            if isWall p then [] else [p])
         (seq 1 (GRID_SIZE - 2)))
    (seq 1 (GRID_SIZE - 2)).

(** One ghost's move.  [r] is what [Math.random] gave for it; the index
    [Math.floor(Math.random() * n)] lies below [n].  An empty list of moves
    gives [undefined], and [randomMove || ghost] keeps the ghost where it
    is. *)
Definition moveGhost (r : nat) (ghost : Position) : Position :=
  let possibleMoves :=
    List.filter (fun pos => negb (isWall pos))
      [ mkPos (x ghost + 1) (y ghost);
        mkPos (x ghost - 1) (y ghost);
        mkPos (x ghost) (y ghost + 1);
        mkPos (x ghost) (y ghost - 1) ] in
  match possibleMoves !! (r mod length possibleMoves)%nat with
  | Some randomMove => randomMove
  | None => ghost
  end.

(** [currentGhosts.map(...)]: ghost number [i] gets the draw [rnd i]. *)
Definition moveGhosts (rnd : nat -> nat) (currentGhosts : list Position)
  : list Position :=
  imap (fun i ghost => moveGhost (rnd i) ghost) currentGhosts.

Definition movePacman (d : Direction) (current : Position) : Position :=
  let newPos :=
    match d with
    | up => mkPos (x current) (y current - 1)
    | down => mkPos (x current) (y current + 1)
    | left => mkPos (x current - 1) (y current)
    | right => mkPos (x current + 1) (y current)
    end in
  if isWall newPos then current else newPos.

(** [dots.findIndex(dot => dot.x === pacman.x && dot.y === pacman.y)] *)
Fixpoint findIndex (p : Position) (l : list Position) : option nat :=
  match l with
  | [] => None
  | dot :: rest =>
      if same_cell dot p then Some 0%nat else S <$> findIndex p rest
  end.

(** The effect on [pacman, ghosts, dots]: dot collection, then the ghost
    collision. *)
Definition checkEffect (s : State) : State :=
  let collided := existsb (fun ghost => same_cell ghost (pacman s)) (ghosts s) in
  match findIndex (pacman s) (dots s) with
  | Some dotIndex =>
      let newDots := delete dotIndex (dots s) in
      {| pacman := pacman s; ghosts := ghosts s; direction := direction s;
         score := score s + 10; dots := newDots;
         gameOver := gameOver s || collided;
         gameWon := gameWon s || (length newDots =? 0)%nat |}
  | None =>
      {| pacman := pacman s; ghosts := ghosts s; direction := direction s;
         score := score s; dots := dots s;
         gameOver := gameOver s || collided; gameWon := gameWon s |}
  end.

(** The interval callback, which runs only while the game is neither lost
    nor won, followed by the effect its state changes trigger. *)
Definition tick (s : State) (rnd : nat -> nat) : State :=
  if gameOver s || gameWon s then s
  else
    checkEffect
      {| pacman := movePacman (direction s) (pacman s);
         ghosts := moveGhosts rnd (ghosts s);
         direction := direction s; score := score s; dots := dots s;
         gameOver := gameOver s; gameWon := gameWon s |}.

Definition setDirection (s : State) (d : Direction) : State :=
  {| pacman := pacman s; ghosts := ghosts s; direction := d;
     score := score s; dots := dots s; gameOver := gameOver s;
     gameWon := gameWon s |}.

Definition resetGame (s : State) : State :=
  checkEffect
    {| pacman := INITIAL_PACMAN; ghosts := INITIAL_GHOSTS; direction := right;
       score := 0; dots := initializeDots; gameOver := false;
       gameWon := false |}.

(** The state after mounting: the [useState] values, with the dots laid out
    by the mount effect. *)
Definition initial : State :=
  checkEffect
    {| pacman := INITIAL_PACMAN; ghosts := INITIAL_GHOSTS; direction := right;
       score := 0; dots := initializeDots; gameOver := false;
       gameWon := false |}.

Inductive Event :=
| Tick (rnd : nat -> nat)
| KeyPress (d : Direction)
| Reset.

Definition step (s : State) (e : Event) : State :=
  match e with
  | Tick rnd => tick s rnd
  | KeyPress d => setDirection s d
  | Reset => resetGame s
  end.

Definition run (events : list Event) : State := fold_left step events initial.

(** Nobody stands in a wall. *)
Definition off_walls (s : State) : Prop :=
  isWall (pacman s) = false
  /\ Forall (fun ghost => isWall ghost = false) (ghosts s).

Definition neighbours (p : Position) : list Position :=
  [ mkPos (x p + 1) (y p); mkPos (x p - 1) (y p);
    mkPos (x p) (y p + 1); mkPos (x p) (y p - 1) ].

Definition target (d : Direction) (p : Position) : Position :=
  match d with
  | up => mkPos (x p) (y p - 1)
  | down => mkPos (x p) (y p + 1)
  | left => mkPos (x p - 1) (y p)
  | right => mkPos (x p + 1) (y p)
  end.

(** *** More about the chase: what holds of every state on a run *)

(** The cells inside the border of the grid. *)
Definition inner (p : Position) : Prop :=
  1 <= x p <= 13 /\ 1 <= y p <= 13.

(** Some ghost is on the player's cell. *)
Definition collided (s : State) : bool :=
  existsb (fun ghost => same_cell ghost (pacman s)) (ghosts s).

(** Every cell of the border is a wall (checked cell by cell). *)
Definition border_walled : bool :=
  forallb
    (fun i =>
       isWall (mkPos i 0) && isWall (mkPos i 14)
       && isWall (mkPos 0 i) && isWall (mkPos 14 i))
    (map Z.of_nat (seq 0 15)).

(** No cell occurs twice in the list. *)
Fixpoint distinct (l : list Position) : bool :=
  match l with
  | [] => true
  | p :: rest => negb (existsb (same_cell p) rest) && distinct rest
  end.

(** What the positions, the dots and the score satisfy on a run, before
    and after the effect has looked at them. *)
Definition laid_out (s : State) : Prop :=
  inner (pacman s)
  /\ Forall inner (ghosts s)
  /\ length (ghosts s) = 4%nat
  /\ NoDup (dots s)
  /\ sublist (dots s) initializeDots
  /\ score s + 10 * Z.of_nat (length (dots s))
     = 10 * Z.of_nat (length initializeDots)
  /\ gameWon s = (length (dots s) =? 0)%nat.

(** After the effect: the flags say what the positions and the dots show. *)
Definition settled (s : State) : Prop :=
  laid_out s
  /\ gameOver s = collided s
  /\ ~ In (pacman s) (dots s).

End Pacman.


(** ** Word guessing (src/games/Hangman.tsx) *)

Module Hangman.

Local Open Scope string_scope.

Inductive Category := animals | celebrities | movies | sports | food.
Inductive Difficulty := easy | medium | hard.
Inductive Status := playing | won | lost.

Record Word := mkWord { word : string; hint : string; difficulty : Difficulty }.

Definition WORD_LIST (c : Category) : list Word :=
  match c with
  | animals =>
      [ mkWord "ELEPHANT" "Largest land mammal with a trunk" easy;
        mkWord "PENGUIN" "Flightless bird that loves the cold" easy;
        mkWord "GIRAFFE" "Tallest land animal with a long neck" easy;
        mkWord "PLATYPUS" "Egg-laying mammal with a duck bill" medium;
        mkWord "CHAMELEON" "Reptile that changes color" hard ]
  | celebrities =>
      [ mkWord "BEYONCE" "Queen B, famous singer" easy;
        mkWord "DICAPRIO" "Titanic actor who finally won an Oscar" medium;
        mkWord "SPIELBERG" "Director of Jurassic Park and E.T." medium;
        mkWord "ZENDAYA" "Euphoria and Spider-Man actress" easy;
        mkWord "SCHWARZENEGGER" "I'll be back" hard ]
  | movies =>
      [ mkWord "INCEPTION" "Dream within a dream" medium;
        mkWord "AVATAR" "Blue aliens on Pandora" easy;
        mkWord "INTERSTELLAR" "Space travel through a black hole" hard;
        mkWord "JAWS" "Dangerous shark" easy;
        mkWord "PULPFICTION" "Quentin Tarantino's masterpiece" medium ]
  | sports =>
      [ mkWord "BASKETBALL" "Slam dunk sport" medium;
        mkWord "TENNIS" "Love means zero" easy;
        mkWord "VOLLEYBALL" "Beach sport with a net" medium;
        mkWord "CRICKET" "Popular in India and England" easy;
        mkWord "BADMINTON" "Shuttlecock sport" medium ]
  | food =>
      [ mkWord "SPAGHETTI" "Italian noodles" medium;
        mkWord "SUSHI" "Japanese raw fish dish" easy;
        mkWord "GUACAMOLE" "Avocado-based dip" hard;
        mkWord "PIZZA" "Italian pie with toppings" easy;
        mkWord "CROISSANT" "French crescent-shaped pastry" medium ]
  end.

Definition MAX_TRIES : Z := 6.

(** [showTutorial] only chooses what is displayed and is left out. *)
Record State := mkState {
  category : Category;
  currentWord : Word;
  guessedLetters : gset string;
  remainingTries : Z;
  gameStatus : Status;
  score : Z;
  highScore : Z;
  streak : Z;
  showHint : bool
}.

Definition initial : State :=
  {| category := animals; currentWord := mkWord "" "" easy;
     guessedLetters := ∅; remainingTries := MAX_TRIES;
     gameStatus := playing; score := 0; highScore := 0; streak := 0;
     showHint := false |}.

(** [rnd] is [Math.floor(Math.random() * wordList.length)], an index below
    the length of the list.  Every list has five words, so the lookup
    finds one. *)
Definition initializeGame (s : State) (rnd : nat) : State :=
  let wordList := WORD_LIST (category s) in
  let randomWord :=
    default (currentWord s) (wordList !! (rnd mod length wordList)%nat) in
  {| category := category s; currentWord := randomWord;
     guessedLetters := ∅; remainingTries := MAX_TRIES;
     gameStatus := playing; score := score s; highScore := highScore s;
     streak := streak s; showHint := false |}.

(** The category [select]: [setCategory], then the effect on [category]
    runs [initializeGame]. *)
Definition selectCategory (s : State) (c : Category) (rnd : nat) : State :=
  initializeGame
    {| category := c; currentWord := currentWord s;
       guessedLetters := guessedLetters s;
       remainingTries := remainingTries s; gameStatus := gameStatus s;
       score := score s; highScore := highScore s; streak := streak s;
       showHint := showHint s |} rnd.

(** The table of [calculateWordScore]; [1.5] is a double, as all numbers
    of the source are. *)
Definition difficultyMultiplier (d : Difficulty) : float :=
  match d with easy => 1 | medium => 1.5 | hard => 2 end%float.

(** The double that holds an integer: the integer itself up to 2^53, the
    nearest double (ties to even) beyond. *)
Definition double_of_Z (z : Z) : float :=
  SF2Prim (binary_normalize 53 1024 z 0 false).

(** The rational a finite double holds; [None] for NaN and the
    infinities. *)
Definition Q_of_double (f : float) : option Q :=
  match Prim2SF f with
  | S754_zero _ => Some 0%Q
  | S754_finite sign m e =>
      let v := (inject_Z (Zpos m) * Qpower 2 e)%Q in
      Some (if sign then Qopp v else v)
  | _ => None
  end.

(** Rounding to the nearest integer, a half going up. *)
Definition Math_round (q : Q) : Z := Qfloor (q + (1 # 2))%Q.

(** [Math.round] of a double: the integer nearest to the value the double
    holds, a half going up; [None] where the source gives NaN or an
    infinity. *)
Definition Math_round_double (f : float) : option Z :=
  Math_round <$> Q_of_double f.

(** [word.length * 10 * difficultyMultiplier[difficulty] *
    (remainingTries / MAX_TRIES)]: three multiplications and a division of
    doubles, each rounded, in the order the source evaluates them. *)
Definition wordScore_product (w : string) (tries : Z) (d : Difficulty)
  : float :=
  PrimFloat.mul
    (PrimFloat.mul
       (PrimFloat.mul (double_of_Z (Z.of_nat (String.length w)))
          (double_of_Z 10))
       (difficultyMultiplier d))
    (PrimFloat.div (double_of_Z tries) (double_of_Z MAX_TRIES)).

(** The score is an integer of the model.  A product that is NaN or
    infinite (this needs a number of tries or of letters beyond 10^150)
    has no integer; [0] stands for it here, and every statement about the
    value of the score says in which range it is made. *)
Definition calculateWordScore (w : string) (tries : Z) (d : Difficulty) : Z :=
  default 0%Z (Math_round_double (wordScore_product w tries d)).

(** [word.includes(letter)]: [letter] occurs in [word] as a substring. *)
Fixpoint includes (w letter : string) : bool :=
  String.prefix letter w
  || match w with
     | EmptyString => false
     | String _ rest => includes rest letter
     end.

(** [[...word]]: the characters of the word, each a string of length one. *)
Fixpoint chars (w : string) : list string :=
  match w with
  | EmptyString => []
  | String c rest => String c EmptyString :: chars rest
  end.

Definition Status_eqb (a b : Status) : bool :=
  match a, b with
  | playing, playing | won, won | lost, lost => true
  | _, _ => false
  end.

Definition guessLetter (s : State) (letter : string) : State :=
  if negb (Status_eqb (gameStatus s) playing) then s
  else
    let newGuessedLetters := {[ letter ]} ∪ guessedLetters s in
    if negb (includes (word (currentWord s)) letter) then
      let newRemainingTries := remainingTries s - 1 in
      if (newRemainingTries =? 0)%Z then
        {| category := category s; currentWord := currentWord s;
           guessedLetters := newGuessedLetters;
           remainingTries := newRemainingTries; gameStatus := lost;
           score := score s; highScore := highScore s; streak := 0;
           showHint := showHint s |}
      else
        {| category := category s; currentWord := currentWord s;
           guessedLetters := newGuessedLetters;
           remainingTries := newRemainingTries; gameStatus := gameStatus s;
           score := score s; highScore := highScore s; streak := streak s;
           showHint := showHint s |}
    else
      let isWon :=
        forallb (fun char => bool_decide (char ∈ newGuessedLetters))
          (chars (word (currentWord s))) in
      if isWon then
        let wordScore :=
          calculateWordScore (word (currentWord s)) (remainingTries s)
            (difficulty (currentWord s)) in
        {| category := category s; currentWord := currentWord s;
           guessedLetters := newGuessedLetters;
           remainingTries := remainingTries s; gameStatus := won;
           score := score s + wordScore;
           highScore := Z.max (highScore s) (score s + wordScore);
           streak := streak s + 1; showHint := showHint s |}
      else
        {| category := category s; currentWord := currentWord s;
           guessedLetters := newGuessedLetters;
           remainingTries := remainingTries s; gameStatus := gameStatus s;
           score := score s; highScore := highScore s; streak := streak s;
           showHint := showHint s |}.

(** The reset button of the statistics bar. *)
Definition resetStats (s : State) : State :=
  {| category := category s; currentWord := currentWord s;
     guessedLetters := guessedLetters s;
     remainingTries := remainingTries s; gameStatus := gameStatus s;
     score := 0; highScore := 0; streak := 0; showHint := showHint s |}.

(** A key of the on-screen keyboard: the button is disabled once its letter
    is guessed or the game is over, and a disabled button does not call
    [guessLetter]. *)
Definition keyboardClick (s : State) (letter : string) : State :=
  if bool_decide (letter ∈ guessedLetters s)
     || negb (Status_eqb (gameStatus s) playing)
  then s
  else guessLetter s letter.

Inductive Event :=
| Guess (letter : string)
| PlayAgain (rnd : nat)
| SelectCategory (c : Category) (rnd : nat)
| ShowHint
| ResetStats.

Definition step (s : State) (e : Event) : State :=
  match e with
  | Guess letter => guessLetter s letter
  | PlayAgain rnd => initializeGame s rnd
  | SelectCategory c rnd => selectCategory s c rnd
  | ShowHint =>
      {| category := category s; currentWord := currentWord s;
         guessedLetters := guessedLetters s;
         remainingTries := remainingTries s; gameStatus := gameStatus s;
         score := score s; highScore := highScore s; streak := streak s;
         showHint := true |}
  | ResetStats => resetStats s
  end.

Definition run (events : list Event) : State := fold_left step events initial.

(** The score of a word as the description gives it, in exact arithmetic:
    round(len(word) * 10 * multiplier * remainingTries / MAX_TRIES), with
    the multipliers 1, 1.5 and 2. *)
Definition described_multiplier (d : Difficulty) : Q :=
  match d with easy => 1 | medium => 3 # 2 | hard => 2 end%Q.

Definition described_wordScore (len tries : Z) (multiplier : Q) : Z :=
  Math_round (inject_Z len * 10 * multiplier * inject_Z tries / inject_Z MAX_TRIES)%Q.

(** On a run: JAWS is chosen, Z is guessed (a miss). *)
Definition after_a_miss : State :=
  run [SelectCategory movies 3; Guess "Z"].



(** A word of [n] letters, and the test that the product of the source is
    finite and rounds to the described score, on the words of up to [n]
    letters for 0 to 6 tries (the score depends on the word through its
    length only). *)
Definition filler (n : nat) : string := string_of_list_ascii (repeat "A"%char n).

Definition agree_at (len : nat) (tries : Z) (d : Difficulty) : bool :=
  match Math_round_double (wordScore_product (filler len) tries d) with
  | Some z =>
      (z =? described_wordScore (Z.of_nat len) tries (described_multiplier d))%Z
  | None => false
  end.

Definition doubles_agree (n : nat) : bool :=
  forallb
    (fun len =>
       forallb
         (fun tries => forallb (agree_at len tries) [easy; medium; hard])
         (map Z.of_nat (seq 0 7)))
    (seq 0 (S n)).

(** *** More about the word game: what holds of every state on a run *)

(** Every character of the word is among the guessed letters. *)
Definition all_guessed (s : State) : Prop :=
  forall char, In char (chars (word (currentWord s))) ->
               char ∈ guessedLetters s.

(** The tries stay in range and run out exactly when the round is lost;
    the round is won exactly when the word is spelled out; the numbers of
    the statistics bar are not negative; the word has at most 14 letters,
    as the longest of [WORD_LIST]. *)
Definition coherent (s : State) : Prop :=
  (0 <= remainingTries s <= MAX_TRIES
   /\ (gameStatus s = lost <-> remainingTries s = 0))%Z
  /\ ((gameStatus s = won -> all_guessed s)
      /\ (word (currentWord s) <> "" -> all_guessed s -> gameStatus s = won))
  /\ (0 <= score s <= highScore s /\ 0 <= streak s)%Z
  /\ (String.length (word (currentWord s)) <= 14)%nat.

End Hangman.


(** * Properties *)

(** ** Snake *)

Module SnakeFacts.
Import Snake.

Lemma newHead_in_grid head dir :
  in_grid head -> unit_step dir -> in_grid (newHead head dir).
Proof.
  unfold in_grid, unit_step, newHead, GRID_SIZE. simpl.
  intros [Hx Hy] Hd.
  split.
  - assert (0 <= x head + x dir + 20) by lia.
    rewrite Z.rem_mod_nonneg by lia.
    apply Z.mod_pos_bound. lia.
  - assert (0 <= y head + y dir + 20) by lia.
    rewrite Z.rem_mod_nonneg by lia.
    apply Z.mod_pos_bound. lia.
Qed.

Lemma length_removelast_cons {A} (a : A) (l : list A) :
  length (removelast (a :: l)) = length l.
Proof.
  revert a. induction l as [|b l IH]; intros a; [reflexivity|].
  change (removelast (a :: b :: l)) with (a :: removelast (b :: l)).
  cbn [length]. rewrite IH. reflexivity.
Qed.

Lemma removelast_cons_head {A} (a b : A) (l : list A) :
  exists rest, removelast (a :: b :: l) = a :: rest.
Proof. exists (removelast (b :: l)). reflexivity. Qed.

Lemma moveSnake_well_formed s rx ry :
  well_formed s -> exists s', moveSnake s rx ry = Some s' /\ well_formed s'.
Proof.
  intros (Hd & head & rest & Hs & Hg).
  unfold moveSnake.
  destruct (gameOver s || isPaused s).
  { exists s. split; [reflexivity|]. split; [assumption|]. eauto. }
  rewrite Hs.
  destruct (existsb _ _).
  { eexists. split; [reflexivity|]. split; simpl; eauto. }
  pose proof (newHead_in_grid _ _ Hg Hd) as Hn.
  destruct (same_cell _ _).
  - eexists. split; [reflexivity|]. split; simpl; eauto.
  - eexists. split; [reflexivity|]. split; [assumption|].
    cbn [snake].
    destruct (removelast_cons_head (newHead head (direction s)) head rest)
      as [tl ->].
    eauto.
Qed.

Lemma handleKeyPress_well_formed s k :
  well_formed s -> well_formed (handleKeyPress s k).
Proof.
  intros (Hd & Hs).
  destruct k; simpl; try (split; assumption);
    match goal with
    | |- context [if ?c then _ else _] => destruct c
    end; split; simpl; try assumption; unfold unit_step; simpl; lia.
Qed.

Lemma initial_well_formed : well_formed initial.
Proof.
  split.
  - unfold unit_step. simpl. lia.
  - exists (mkPos 10 10), []. split; [reflexivity|].
    unfold in_grid, GRID_SIZE. simpl. lia.
Qed.

Lemma resetGame_well_formed s rx ry : well_formed (resetGame s rx ry).
Proof. exact initial_well_formed. Qed.

Lemma run_from_well_formed events :
  forall s, well_formed s ->
  exists s', run_from s events = Some s' /\ well_formed s'.
Proof.
  induction events as [|e events IH]; intros s Hs; simpl.
  - eauto.
  - destruct e as [rx ry|k|rx ry]; simpl.
    + destruct (moveSnake_well_formed s rx ry Hs) as (s' & -> & Hs').
      apply IH, Hs'.
    + apply IH, handleKeyPress_well_formed, Hs.
    + apply IH, resetGame_well_formed.
Qed.

(** Every sequence of events is run to its end, and the state it reaches
    is well formed. *)
Lemma run_well_formed events :
  exists s, run events = Some s /\ well_formed s.
Proof. apply run_from_well_formed, initial_well_formed. Qed.

Lemma food_on_tail_reached : run food_on_tail_run = Some tail_food.
Proof. reflexivity. Qed.

(** C7, as written, fails: [tail_food] is the state a run ends in, the
    game is on, the new head coincides with the food, and the tick leaves
    the four segments four (the head has run into a segment, which ends the
    game). *)
Lemma growth_tick_on_own_segment :
  run food_on_tail_run = Some tail_food
  /\ gameOver tail_food = false
  /\ isPaused tail_food = false
  /\ same_cell (newHead (mkPos 14 14) (direction tail_food)) (food tail_food)
     = true
  /\ exists s', moveSnake tail_food 0 0 = Some s'
       /\ length (snake tail_food) = 4%nat
       /\ length (snake s') = 4%nat
       /\ gameOver s' = true.
Proof.
  repeat split. eexists. split; [reflexivity|]. repeat split.
Qed.

(** C7, amended.  From every state on a run in which the game is neither
    over nor paused, a tick returns a state, and with [h] the new head
    ((head + direction + gridSize) % gridSize in each coordinate):
    - if [h] does not coincide with the food, the number of segments is
      unchanged;
    - if [h] coincides with the food and with no segment, the number of
      segments grows by exactly one;
    - if [h] coincides with a segment, the game is over and the segments
      are unchanged (also when the food lies on that segment);
    - the head after the tick has both coordinates in [0, gridSize). *)
Theorem tick_segments_and_head events s rx ry :
  run events = Some s ->
  gameOver s = false ->
  isPaused s = false ->
  exists head rest s',
    snake s = head :: rest
    /\ moveSnake s rx ry = Some s'
    /\ let h := newHead head (direction s) in
       let hit := existsb (fun segment => same_cell segment h) (snake s) in
       (same_cell h (food s) = false ->
          length (snake s') = length (snake s))
       /\ (same_cell h (food s) = true -> hit = false ->
          length (snake s') = S (length (snake s)) /\ gameOver s' = false)
       /\ (hit = true -> snake s' = snake s /\ gameOver s' = true)
       /\ exists head' rest', snake s' = head' :: rest' /\ in_grid head'.
Proof.
  intros Hrun Hover Hpaused.
  destruct (run_well_formed events) as (s0 & Hrun0 & Hwf).
  rewrite Hrun in Hrun0. injection Hrun0 as <-.
  destruct (moveSnake_well_formed s rx ry Hwf) as (s' & Hmove & _ & Hhead').
  destruct Hwf as (Hd & head & rest & Hs & Hg).
  exists head, rest, s'.
  split; [assumption|]. split; [assumption|].
  cbv zeta.
  split; [|split; [|split]]; try assumption; revert Hmove; unfold moveSnake;
    rewrite Hover, Hpaused, Hs; cbn [orb].
  - intros Hmove Hfood. revert Hmove. rewrite Hfood.
    destruct (existsb _ _); intros [= <-]; cbn [snake].
    + reflexivity.
    + change (length (removelast (newHead head (direction s) :: head :: rest))
              = length (head :: rest)).
      apply length_removelast_cons.
  - intros Hmove Hfood Hhit. revert Hmove. rewrite Hhit, Hfood.
    intros [= <-]. simpl. split; reflexivity.
  - intros Hmove Hhit. revert Hmove. rewrite Hhit.
    intros [= <-]. simpl. split; reflexivity.
Qed.

Lemma tick_segments_and_head_witness :
  exists head rest s',
    snake initial = head :: rest
    /\ moveSnake initial 3 4 = Some s'
    /\ let h := newHead head (direction initial) in
       let hit := existsb (fun segment => same_cell segment h) (snake initial) in
       (same_cell h (food initial) = false ->
          length (snake s') = length (snake initial))
       /\ (same_cell h (food initial) = true -> hit = false ->
          length (snake s') = S (length (snake initial)) /\ gameOver s' = false)
       /\ (hit = true -> snake s' = snake initial /\ gameOver s' = true)
       /\ exists head' rest', snake s' = head' :: rest' /\ in_grid head'.
Proof.
  apply (tick_segments_and_head [] initial 3 4); reflexivity.
Defined.

End SnakeFacts.

(** ** Maze chase *)

Module PacmanFacts.
Import Pacman.

Lemma movePacman_cases d p :
  (isWall (target d p) = true /\ movePacman d p = p)
  \/ (isWall (target d p) = false /\ movePacman d p = target d p).
Proof.
  unfold movePacman.
  destruct d; simpl; match goal with |- context [isWall ?q] =>
    destruct (isWall q) eqn:E end; auto.
Qed.

Lemma movePacman_off_walls d p :
  isWall p = false -> isWall (movePacman d p) = false.
Proof.
  intros Hp. destruct (movePacman_cases d p) as [[_ ->] | [Hw ->]]; assumption.
Qed.

Lemma moveGhost_cases r ghost :
  (moveGhost r ghost = ghost
   /\ forall pos, In pos (neighbours ghost) -> isWall pos = true)
  \/ (In (moveGhost r ghost) (neighbours ghost)
      /\ isWall (moveGhost r ghost) = false).
Proof.
  unfold moveGhost.
  fold (neighbours ghost).
  set (possibleMoves := List.filter _ (neighbours ghost)).
  destruct (possibleMoves !! (r mod length possibleMoves)%nat) as [pos|] eqn:E.
  - right.
    apply list_elem_of_lookup_2, list_elem_of_In in E.
    apply filter_In in E as [Hin Hw].
    split; [assumption|]. now apply negb_true_iff in Hw.
  - left. split; [reflexivity|].
    apply lookup_ge_None in E.
    assert (Hnil : possibleMoves = []).
    { destruct possibleMoves as [|q l]; [reflexivity|]. exfalso.
      pose proof (Nat.mod_upper_bound r (length (q :: l))) as Hb.
      simpl length in *. lia. }
    intros pos Hin.
    destruct (isWall pos) eqn:Hw; [reflexivity|]. exfalso.
    assert (Hf : In pos possibleMoves).
    { apply filter_In. split; [assumption|]. now rewrite Hw. }
    rewrite Hnil in Hf. destruct Hf.
Qed.

Lemma moveGhost_off_walls r ghost :
  isWall ghost = false -> isWall (moveGhost r ghost) = false.
Proof.
  intros Hg. destruct (moveGhost_cases r ghost) as [[-> _] | [_ Hw]]; assumption.
Qed.

Lemma moveGhosts_off_walls rnd currentGhosts :
  Forall (fun ghost => isWall ghost = false) currentGhosts ->
  Forall (fun ghost => isWall ghost = false) (moveGhosts rnd currentGhosts).
Proof.
  unfold moveGhosts. intros H. revert rnd.
  induction H as [|g l Hg Hl IH]; intros rnd; simpl.
  - constructor.
  - constructor.
    + apply moveGhost_off_walls, Hg.
    + apply (IH (fun i => rnd (S i))).
Qed.

Lemma checkEffect_positions s :
  pacman (checkEffect s) = pacman s /\ ghosts (checkEffect s) = ghosts s.
Proof. unfold checkEffect. destruct (findIndex _ _); split; reflexivity. Qed.

Lemma checkEffect_off_walls s : off_walls s -> off_walls (checkEffect s).
Proof.
  unfold off_walls. destruct (checkEffect_positions s) as [-> ->]. trivial.
Qed.

Lemma initial_off_walls : off_walls initial.
Proof.
  apply checkEffect_off_walls. split; [reflexivity|].
  repeat constructor.
Qed.

Lemma step_off_walls s e : off_walls s -> off_walls (step s e).
Proof.
  intros [Hp Hg]. destruct e as [rnd|d|]; simpl.
  - unfold tick. destruct (gameOver s || gameWon s); [split; assumption|].
    apply checkEffect_off_walls. split; simpl.
    + apply movePacman_off_walls, Hp.
    + apply moveGhosts_off_walls, Hg.
  - split; assumption.
  - apply initial_off_walls.
Qed.

Lemma run_from_off_walls events :
  forall s, off_walls s -> off_walls (fold_left step events s).
Proof.
  induction events as [|e events IH]; intros s Hs; simpl; [assumption|].
  apply IH, step_off_walls, Hs.
Qed.

(** C8.  In the state after mounting and after every sequence of ticks (with
    any draws for the ghosts), key presses and resets, neither the player
    nor any ghost stands on a wall cell.  A player step whose target is a
    wall leaves the player in place; a ghost stays only when all four
    neighbours are walls, and otherwise moves to a neighbour that is not a
    wall. *)
Theorem nobody_in_a_wall :
  (forall events,
     isWall (pacman (run events)) = false
     /\ Forall (fun ghost => isWall ghost = false) (ghosts (run events)))
  /\ (forall d p, isWall (target d p) = true -> movePacman d p = p)
  /\ (forall d p, isWall (target d p) = false -> movePacman d p = target d p)
  /\ (forall r ghost,
        (moveGhost r ghost = ghost
         /\ forall pos, In pos (neighbours ghost) -> isWall pos = true)
        \/ (In (moveGhost r ghost) (neighbours ghost)
            /\ isWall (moveGhost r ghost) = false)).
Proof.
  split; [|split; [|split]].
  - intros events. apply run_from_off_walls, initial_off_walls.
  - intros d p Hw. destruct (movePacman_cases d p) as [[_ E] | [Hw' _]];
      [assumption | congruence].
  - intros d p Hw. destruct (movePacman_cases d p) as [[Hw' _] | [_ E]];
      [congruence | assumption].
  - apply moveGhost_cases.
Qed.

Lemma nobody_in_a_wall_witness :
  isWall (pacman (run [Tick (fun i => i); KeyPress up; Tick (fun _ => 2%nat)])) = false
  /\ movePacman left (mkPos 6 11) = mkPos 6 11
  /\ movePacman right INITIAL_PACMAN = mkPos 8 11.
Proof.
  destruct nobody_in_a_wall as (Hrun & Hstay & Hgo & _).
  split; [apply Hrun|].
  split; [apply Hstay | apply Hgo]; reflexivity.
Defined.

End PacmanFacts.

(** ** Word guessing *)

Module HangmanFacts.
Import Hangman.
Local Open Scope string_scope.

(** *** Guessing a letter again *)

(** C5, as written, fails: after the miss the game is on and Z is among the
    guessed letters, yet guessing Z again takes another try away. *)
Lemma reguessing_a_miss_costs_a_try :
  gameStatus after_a_miss = playing
  /\ "Z" ∈ guessedLetters after_a_miss
  /\ remainingTries after_a_miss = 5
  /\ remainingTries (guessLetter after_a_miss "Z") = 4.
Proof.
  split; [reflexivity|]. split; [|split; reflexivity].
  apply (proj1 (bool_decide_eq_true _)). vm_compute. reflexivity.
Qed.

Lemma forallb_false_exists {A} (f : A -> bool) (l : list A) :
  (exists a, In a l /\ f a = false) -> forallb f l = false.
Proof.
  intros (a & Hin & Hf).
  destruct (forallb f l) eqn:E; [|reflexivity].
  rewrite forallb_forall in E. rewrite (E a Hin) in Hf. discriminate.
Qed.

(** C5, amended.  In a state where the game is on and [letter] is already
    among the guessed letters:
    - a click on the letter's key of the on-screen keyboard changes
      nothing (the key is disabled);
    - [guessLetter] itself changes nothing when the letter occurs in the
      word and some character of the word is still not guessed.
    [guessLetter] does not test whether the letter was guessed before. *)
Theorem guessing_again s letter :
  gameStatus s = playing ->
  letter ∈ guessedLetters s ->
  keyboardClick s letter = s
  /\ (includes (word (currentWord s)) letter = true ->
      (exists char, In char (chars (word (currentWord s)))
                    /\ char ∉ guessedLetters s) ->
      guessLetter s letter = s).
Proof.
  intros Hplay Hin. split.
  - unfold keyboardClick. rewrite bool_decide_eq_true_2 by assumption.
    reflexivity.
  - intros Hinc (char & Hchar & Hnot).
    unfold guessLetter.
    rewrite Hplay, Hinc. simpl negb. cbv iota.
    assert (Hsame : {[letter]} ∪ guessedLetters s = guessedLetters s).
    { apply leibniz_equiv. intros c.
      rewrite elem_of_union, elem_of_singleton.
      split; [intros [->|]; assumption | auto]. }
    rewrite Hsame.
    rewrite forallb_false_exists.
    + destruct s; simpl in *; subst; reflexivity.
    + exists char. split; [assumption|].
      apply bool_decide_eq_false. assumption.
Qed.

(** A hit guessed twice on a run: JAWS is chosen, A is guessed. *)
Lemma guessing_again_witness :
  let s := run [SelectCategory movies 3; Guess "A"] in
  keyboardClick s "A" = s /\ guessLetter s "A" = s.
Proof.
  intros s.
  assert (Hin : "A" ∈ guessedLetters s)
    by (apply (proj1 (bool_decide_eq_true _)); vm_compute; reflexivity).
  destruct (guessing_again s "A" eq_refl Hin) as [Hkey Hguess].
  split; [exact Hkey|].
  apply Hguess; [reflexivity|].
  exists "J". split; [left; reflexivity|].
  apply (proj1 (bool_decide_eq_false _)). vm_compute. reflexivity.
Defined.

(** *** The score of a word *)

Lemma Math_round_comp (p q : Q) : (p == q)%Q -> Math_round p = Math_round q.
Proof.
  intros H. unfold Math_round. apply Qfloor_comp. rewrite H. reflexivity.
Qed.

Lemma length_filler n : String.length (filler n) = n.
Proof.
  unfold filler. induction n as [|n IH]; simpl; [reflexivity|].
  now rewrite IH.
Qed.

Lemma doubles_agree_at n :
  doubles_agree n = true ->
  forall len tries d,
    (len <= n)%nat -> (0 <= tries <= 6)%Z -> agree_at len tries d = true.
Proof.
  unfold doubles_agree. intros H len tries d Hlen Htries.
  rewrite forallb_forall in H.
  specialize (H len ltac:(apply in_seq; lia)).
  rewrite forallb_forall in H.
  assert (Hin : In tries (map Z.of_nat (seq 0 7))).
  { replace tries with (Z.of_nat (Z.to_nat tries)) by lia.
    apply in_map, in_seq. lia. }
  specialize (H tries Hin).
  rewrite forallb_forall in H.
  apply H. destruct d; simpl; auto.
Qed.

Lemma doubles_agree_64 : doubles_agree 64 = true.
Proof. vm_cast_no_check (eq_refl true). Qed.

(** On words of up to 64 letters (the longest of [WORD_LIST] has 14) and
    with 0 to 6 tries, the product of the doubles is finite and rounds to
    the integer of the description. *)
Lemma wordScore_product_described w tries d :
  (String.length w <= 64)%nat ->
  (0 <= tries <= 6)%Z ->
  Math_round_double (wordScore_product w tries d)
  = Some (described_wordScore (Z.of_nat (String.length w)) tries
            (described_multiplier d)).
Proof.
  intros Hlen Htries.
  pose proof (doubles_agree_at 64 doubles_agree_64 _ _ d Hlen Htries) as H.
  unfold agree_at in H.
  unfold wordScore_product in *.
  rewrite length_filler in H.
  destruct (Math_round_double _) as [z|] eqn:E.
  - apply Z.eqb_eq in H. now rewrite H.
  - exfalso. apply diff_false_true, H.
Qed.

Lemma calculateWordScore_described w tries d :
  (String.length w <= 64)%nat ->
  (0 <= tries <= 6)%Z ->
  calculateWordScore w tries d
  = described_wordScore (Z.of_nat (String.length w)) tries
      (described_multiplier d).
Proof.
  intros Hlen Htries. unfold calculateWordScore.
  now rewrite wordScore_product_described.
Qed.

(** Beyond six tries, which no state of the game has, the doubles and the
    description can differ: a word of seven letters at medium with 13 tries
    scores 227 in the code, the product being 227.49999999999997, and 228
    in exact arithmetic. *)
Lemma calculateWordScore_beyond_six_tries :
  calculateWordScore "GIRAFFE" 13 medium = 227%Z
  /\ described_wordScore 7 13 (described_multiplier medium) = 228%Z.
Proof. split; vm_compute; reflexivity. Qed.


(** *** The range of the tries and of the word on a run *)

Lemma WORD_LIST_short c w :
  In w (WORD_LIST c) -> (String.length (word w) <= 14)%nat.
Proof.
  destruct c; simpl; intros H;
    repeat (destruct H as [<-|H]; [simpl; lia|]); destruct H.
Qed.

Lemma initializeGame_short s rnd :
  (String.length (word (currentWord s)) <= 14)%nat ->
  (String.length (word (currentWord (initializeGame s rnd))) <= 14)%nat.
Proof.
  intros Hs. unfold initializeGame. cbn [currentWord].
  destruct (WORD_LIST (category s) !! (rnd mod length (WORD_LIST (category s)))%nat)
    as [w|] eqn:E.
  - cbn [default]. apply (WORD_LIST_short (category s)).
    apply list_elem_of_In. eapply list_elem_of_lookup_2, E.
  - exact Hs.
Qed.






(** *** High score *)

Lemma step_keeps_high_score s e :
  (score s <= highScore s)%Z ->
  (score (step s e) <= highScore (step s e))%Z.
Proof.
  intros H. destruct e as [letter|rnd|c rnd| |]; simpl; try assumption;
    try lia.
  unfold guessLetter.
  repeat match goal with
         | |- context [if ?c then _ else _] => destruct c
         end; simpl; lia.
Qed.

Lemma run_from_keeps_high_score events :
  forall s, (score s <= highScore s)%Z ->
  (score (fold_left step events s) <= highScore (fold_left step events s))%Z.
Proof.
  induction events as [|e events IH]; intros s Hs; simpl; [assumption|].
  apply IH, step_keeps_high_score, Hs.
Qed.

(** C10.  [score <= highScore] holds in the initial state and after every
    sequence of guesses, new rounds, category changes and statistics
    resets; a winning guess sets the high score to at least the new score,
    and the statistics reset sets both to zero. *)
Theorem high_score_bounds_score :
  (forall events, (score (run events) <= highScore (run events))%Z)
  /\ (forall s letter,
        (score s <= highScore s)%Z ->
        (score (guessLetter s letter) <= highScore (guessLetter s letter))%Z
        /\ (score s < score (guessLetter s letter) ->
            highScore (guessLetter s letter)
            = Z.max (highScore s) (score (guessLetter s letter)))%Z)
  /\ (forall s, score (resetStats s) = 0%Z /\ highScore (resetStats s) = 0%Z)
  /\ (forall s rnd, score (initializeGame s rnd) = score s
                    /\ highScore (initializeGame s rnd) = highScore s).
Proof.
  split; [|split; [|split]].
  - intros events. apply run_from_keeps_high_score. simpl. lia.
  - intros s letter H. split.
    + apply (step_keeps_high_score s (Guess letter) H).
    + unfold guessLetter.
      repeat match goal with
             | |- context [if ?c then _ else _] => destruct c
             end; simpl; lia.
  - intros s. split; reflexivity.
  - intros s rnd. split; reflexivity.
Qed.

Lemma high_score_bounds_score_witness :
  let s := run [SelectCategory movies 3; Guess "J"; Guess "A"; Guess "W"] in
  (score (guessLetter s "S") <= highScore (guessLetter s "S"))%Z
  /\ highScore (guessLetter s "S") = 40%Z.
Proof.
  intros s.
  destruct high_score_bounds_score as (Hrun & Hguess & _).
  destruct (Hguess s "S" (Hrun _)) as [Hle Hmax].
  split; [exact Hle|].
  rewrite Hmax; [reflexivity|].
  vm_compute. reflexivity.
Defined.

End HangmanFacts.

(** ** Board game *)

Module TicTacToeFacts.
Import TicTacToe.

(** *** Empty squares *)

Lemma getEmptySquares_from squares :
  forall k acc,
    fold_left
      (fun acc '(idx, cell) => if is_null cell then acc ++ [idx] else acc)
      (combine (seq k (length squares)) squares) acc
    = acc ++ nulls_from k squares.
Proof.
  induction squares as [|cell rest IH]; intros k acc; simpl.
  - now rewrite app_nil_r.
  - rewrite IH. destruct (is_null cell); [|reflexivity].
    now rewrite <- app_assoc.
Qed.

Lemma getEmptySquares_nulls squares :
  getEmptySquares squares = nulls_from 0 squares.
Proof. unfold getEmptySquares. now rewrite getEmptySquares_from. Qed.

Lemma read_app_r (pre squares : list Cell) j :
  read (pre ++ squares) (length pre + j) = read squares j.
Proof.
  unfold read. rewrite lookup_app_r by lia.
  replace (length pre + j - length pre)%nat with j by lia. reflexivity.
Qed.

Lemma empty_cells_from squares :
  forall pre,
    List.filter (fun i => is_null (read (pre ++ squares) i))
      (seq (length pre) (length squares))
    = nulls_from (length pre) squares.
Proof.
  induction squares as [|cell rest IH]; intros pre; simpl; [reflexivity|].
  replace (length pre) with (length pre + 0)%nat at 1 by lia.
  rewrite read_app_r. unfold read at 1. simpl.
  specialize (IH (pre ++ [cell])).
  rewrite <- app_assoc, length_app in IH. simpl in IH.
  rewrite Nat.add_1_r in IH. rewrite IH.
  reflexivity.
Qed.

Lemma empty_cells_nulls squares : empty_cells squares = nulls_from 0 squares.
Proof. exact (empty_cells_from squares []). Qed.

Lemma In_nulls_from squares :
  forall k m,
    In m (nulls_from k squares)
    <-> exists j, m = (k + j)%nat /\ squares !! j = Some Null.
Proof.
  induction squares as [|cell rest IH]; intros k m; simpl.
  - split; [intros [] | intros (j & _ & Hj); discriminate].
  - assert (Hrest : In m (nulls_from (S k) rest)
                    <-> exists j, m = (k + S j)%nat /\ rest !! j = Some Null).
    { rewrite IH. split; intros (j & -> & Hj); exists j; split; auto; lia. }
    destruct cell; simpl; rewrite ?Hrest.
    + split.
      * intros [<-|(j & -> & Hj)]; [exists 0%nat | exists (S j)]; split; auto; lia.
      * intros ([|j] & -> & Hj); [left; lia | right; eauto].
    + split.
      * intros (j & -> & Hj). exists (S j). auto.
      * intros ([|j] & -> & Hj); [discriminate | eauto].
    + split.
      * intros (j & -> & Hj). exists (S j). auto.
      * intros ([|j] & -> & Hj); [discriminate | eauto].
Qed.

Lemma In_nulls squares m :
  In m (nulls_from 0 squares) <-> squares !! m = Some Null.
Proof.
  rewrite In_nulls_from. split.
  - intros (j & -> & Hj). exact Hj.
  - intros H. exists m. auto.
Qed.

Lemma nulls_from_lower squares :
  forall k m, In m (nulls_from k squares) -> (k <= m)%nat.
Proof. intros k m H. apply In_nulls_from in H as (j & -> & _). lia. Qed.

Lemma length_nulls_from_mark squares p :
  forall k j,
    squares !! j = Some Null ->
    S (length (nulls_from k (<[j := Mark p]> squares)))
    = length (nulls_from k squares).
Proof.
  induction squares as [|cell rest IH]; intros k j Hj; [discriminate|].
  destruct j as [|j]; simpl in *.
  - injection Hj as ->. reflexivity.
  - destruct (is_null cell); simpl; rewrite <- (IH (S k) j Hj); reflexivity.
Qed.

Lemma store_in_range (squares : list Cell) i v :
  (i < length squares)%nat -> store squares i v = <[i := v]> squares.
Proof.
  intros H. unfold store.
  destruct (Nat.ltb_spec i (length squares)); [reflexivity | lia].
Qed.

Lemma store_mark squares m p :
  squares !! m = Some Null -> store squares m (Mark p) = place squares m p.
Proof. intros H. apply store_in_range. eapply lookup_lt_Some, H. Qed.

Lemma store_undo squares m p :
  squares !! m = Some Null -> store (place squares m p) m Null = squares.
Proof.
  intros H. unfold place.
  rewrite store_in_range by (rewrite length_insert; eapply lookup_lt_Some, H).
  rewrite list_insert_insert_eq. apply list_insert_id, H.
Qed.

Lemma nonterminal_has_empty squares :
  fst (checkWinner squares) = None -> nulls_from 0 squares <> [].
Proof.
  unfold checkWinner.
  destruct (first_line squares WINNING_COMBINATIONS) as [[p line]|];
    [discriminate|].
  simpl. destruct (forallb _ squares) eqn:E; [discriminate|]. intros _.
  generalize 0%nat.
  induction squares as [|cell rest IH]; [discriminate|]. intros k.
  simpl in *. destruct cell; simpl in *; try discriminate; apply IH, E.
Qed.

(** *** The loops *)

(** A loop whose body gives the array back as it found it gives the array
    back, and its result is the fold of what the bodies compute. *)
Lemma for_of_restoring {A} (moves : list nat) (body : nat -> A -> Search A)
  (step : nat -> A -> A) (squares : list Cell) :
  (forall m a, In m moves -> body m a squares = Some (step m a, squares)) ->
  forall acc,
    for_of moves body acc squares
    = Some (fold_left (fun a m => step m a) moves acc, squares).
Proof.
  induction moves as [|m moves IH]; intros Hbody acc; simpl.
  - reflexivity.
  - unfold mbind, Search_bind. rewrite Hbody by (left; reflexivity).
    apply IH. intros m' a Hin. apply Hbody. right. exact Hin.
Qed.

Lemma fold_Math_max (f : nat -> Z) (l : list nat) (b : Z) :
  fold_left (fun a m => Math_max a (Fin (f m))) l (Fin b)
  = Fin (fold_left Z.max (map f l) b).
Proof. revert b. induction l as [|m l IH]; intros b; simpl; auto. Qed.

Lemma fold_Math_min (f : nat -> Z) (l : list nat) (b : Z) :
  fold_left (fun a m => Math_min a (Fin (f m))) l (Fin b)
  = Fin (fold_left Z.min (map f l) b).
Proof. revert b. induction l as [|m l IH]; intros b; simpl; auto. Qed.

Lemma fold_Math_max_NegInf (f : nat -> Z) (l : list nat) :
  l <> [] ->
  fold_left (fun a m => Math_max a (Fin (f m))) l NegInf
  = Fin (maximum 0 (map f l)).
Proof.
  destruct l as [|m l]; [congruence|]. intros _. simpl. apply fold_Math_max.
Qed.

Lemma fold_Math_min_PosInf (f : nat -> Z) (l : list nat) :
  l <> [] ->
  fold_left (fun a m => Math_min a (Fin (f m))) l PosInf
  = Fin (minimum 0 (map f l)).
Proof.
  destruct l as [|m l]; [congruence|]. intros _. simpl. apply fold_Math_min.
Qed.

Lemma value_unfold n squares d aiTurn :
  value n squares d aiTurn =
  match fst (checkWinner squares) with
  | Some (Win O) => 10 - d
  | Some (Win X) => d - 10
  | Some Draw => 0
  | None =>
      match n with
      | 0%nat => 0
      | S n' =>
          if aiTurn then
            maximum 0 (map (fun i => value n' (place squares i O) (d + 1) false)
                         (empty_cells squares))
          else
            minimum 0 (map (fun i => value n' (place squares i X) (d + 1) true)
                         (empty_cells squares))
      end
  end.
Proof. destruct n; reflexivity. Qed.

(** *** The search computes the reference value and restores the array *)

(** One trial placement: mark, search, undo. *)
Lemma trial_restoring fuel n squares d turn p m :
  (forall n squares d isMaximizing,
     (length (nulls_from 0 squares) < fuel)%nat ->
     (length (nulls_from 0 squares) <= n)%nat ->
     minimax_fuel fuel d isMaximizing squares
     = Some (Fin (value n squares d isMaximizing), squares)) ->
  (length (nulls_from 0 squares) <= fuel)%nat ->
  (length (nulls_from 0 squares) <= S n)%nat ->
  In m (nulls_from 0 squares) ->
  forall {A} (k : Num -> A),
    (_ ← assign m (Mark p);
     score ← minimax_fuel fuel d turn;
     _ ← assign m Null;
     mret (k score)) squares
    = Some (k (Fin (value n (place squares m p) d turn)), squares).
Proof.
  intros IH Hfuel Hn Hm A k.
  apply In_nulls in Hm.
  pose proof (length_nulls_from_mark squares p 0 m Hm) as Hlen.
  unfold mbind, Search_bind, assign, mret, Search_ret.
  rewrite (store_mark _ _ _ Hm).
  rewrite (IH n) by (unfold place; lia).
  rewrite (store_undo _ _ _ Hm). reflexivity.
Qed.

Lemma minimax_fuel_value fuel :
  forall n squares d isMaximizing,
    (length (nulls_from 0 squares) < fuel)%nat ->
    (length (nulls_from 0 squares) <= n)%nat ->
    minimax_fuel fuel d isMaximizing squares
    = Some (Fin (value n squares d isMaximizing), squares).
Proof.
  induction fuel as [|fuel IH]; intros n squares d isMaximizing Hfuel Hn;
    [lia|].
  rewrite value_unfold. simpl.
  unfold mbind at 1, Search_bind at 1, current.
  destruct (fst (checkWinner squares)) as [[[|]|]|] eqn:E; try reflexivity.
  pose proof (nonterminal_has_empty _ E) as Hne.
  destruct n as [|n].
  { destruct (nulls_from 0 squares); [congruence | simpl in Hn; lia]. }
  rewrite getEmptySquares_nulls, empty_cells_nulls.
  destruct isMaximizing.
  - rewrite (for_of_restoring _ _
               (fun m a => Math_max a
                  (Fin (value n (place squares m O) (d + 1) false)))).
    + now rewrite fold_Math_max_NegInf.
    + intros m a Hm.
      apply (trial_restoring fuel n squares (d + 1) false O m IH); auto; lia.
  - rewrite (for_of_restoring _ _
               (fun m a => Math_min a
                  (Fin (value n (place squares m X) (d + 1) true)))).
    + now rewrite fold_Math_min_PosInf.
    + intros m a Hm.
      apply (trial_restoring fuel n squares (d + 1) true X m IH); auto; lia.
Qed.

(** [minimax] is given enough fuel: it returns, with the reference value
    and the array as it was. *)
Lemma minimax_value squares d isMaximizing :
  minimax squares d isMaximizing
  = Some (Fin (value (length (empty_cells squares)) squares d isMaximizing),
          squares).
Proof.
  unfold minimax. rewrite getEmptySquares_nulls, empty_cells_nulls.
  apply minimax_fuel_value; lia.
Qed.

(** *** The hard strategy *)

Lemma fold_max_lower (l : list Z) (b : Z) : b <= fold_left Z.max l b.
Proof.
  revert b. induction l as [|v l IH]; intros b; simpl; [lia|].
  specialize (IH (Z.max b v)). lia.
Qed.

Lemma fold_better mv (l : list nat) :
  forall b m,
    fold_left (fun a i => better mv i a) l (Fin b, Some m)
    = (Fin (fold_left Z.max (map mv l) b),
       if b =? fold_left Z.max (map mv l) b then Some m
       else head (List.filter
                    (fun i => mv i =? fold_left Z.max (map mv l) b) l)).
Proof.
  induction l as [|i l IH]; intros b m; simpl.
  - now rewrite Z.eqb_refl.
  - unfold better at 2. simpl.
    pose proof (fold_max_lower (map mv l) (Z.max b (mv i))) as Hlow.
    destruct (Z.ltb_spec b (mv i)) as [Hlt|Hge].
    + rewrite IH. replace (Z.max b (mv i)) with (mv i) in * by lia.
      f_equal.
      destruct (Z.eqb_spec b (fold_left Z.max (map mv l) (mv i))); [lia|].
      destruct (Z.eqb_spec (mv i) (fold_left Z.max (map mv l) (mv i)));
        reflexivity.
    + rewrite IH. replace (Z.max b (mv i)) with b in * by lia.
      f_equal.
      destruct (Z.eqb_spec b (fold_left Z.max (map mv l) b)); [reflexivity|].
      destruct (Z.eqb_spec (mv i) (fold_left Z.max (map mv l) b)); [lia|].
      reflexivity.
Qed.

Lemma fold_better_choice mv (l : list nat) :
  snd (fold_left (fun a i => better mv i a) l (NegInf, l !! 0%nat))
  = head (List.filter (fun i => mv i =? maximum 0 (map mv l)) l).
Proof.
  destruct l as [|m l]; [reflexivity|].
  simpl. unfold better at 2. simpl.
  rewrite fold_better. simpl.
  destruct (Z.eqb_spec (mv m) (fold_left Z.max (map mv l) (mv m)));
    reflexivity.
Qed.

(** On every board the hard strategy returns the reference choice, and
    the array as it was. *)
Lemma getAIMove_hard rnd squares :
  getAIMove Hard rnd squares = Some (reference_choice squares, squares).
Proof.
  unfold getAIMove, getAIMove_fuel, reference_choice.
  cbn [is_easy is_medium andb].
  unfold mbind at 1, Search_bind at 1, current.
  unfold mbind at 1, Search_bind at 1.
  rewrite getEmptySquares_nulls.
  rewrite (for_of_restoring _ _ (better (move_value squares))).
  - unfold mret, Search_ret. rewrite fold_better_choice.
    rewrite empty_cells_nulls. reflexivity.
  - intros m [bestScore bestMove] Hm.
    unfold move_value. rewrite empty_cells_nulls.
    apply (trial_restoring (S (length (nulls_from 0 squares)))
             (length (nulls_from 0 squares)) squares 0 false O m
             (minimax_fuel_value _)
             ltac:(lia) ltac:(lia) Hm
             (fun score => if Num_gt score bestScore then (score, Some m)
                           else (bestScore, bestMove))).
Qed.

(** The other two strategies read the array and write nothing. *)
Lemma getAIMove_restores d rnd squares :
  exists aiMove, getAIMove d rnd squares = Some (aiMove, squares).
Proof.
  destruct d.
  - eexists. unfold getAIMove, getAIMove_fuel.
    unfold mbind, Search_bind, current, mret, Search_ret.
    cbn [is_easy]. reflexivity.
  - destruct (below_03 rnd) eqn:E.
    + eexists. unfold getAIMove, getAIMove_fuel.
      unfold mbind at 1, Search_bind at 1, current, mret, Search_ret.
      rewrite E. cbn [is_easy is_medium andb]. reflexivity.
    + eexists. etransitivity; [|apply (getAIMove_hard rnd)].
      unfold getAIMove, getAIMove_fuel.
      unfold mbind at 1, Search_bind at 1, current.
      unfold mbind at 2, Search_bind at 2.
      rewrite E. cbn [is_easy is_medium andb]. reflexivity.
  - eexists. apply getAIMove_hard.
Qed.

Lemma head_filter_nulls_least (f : nat -> bool) squares :
  forall k m,
    head (List.filter f (nulls_from k squares)) = Some m ->
    In m (nulls_from k squares) /\ f m = true
    /\ forall i, In i (nulls_from k squares) -> f i = true -> (m <= i)%nat.
Proof.
  induction squares as [|cell rest IH]; intros k m; simpl; [discriminate|].
  destruct (is_null cell); simpl.
  - destruct (f k) eqn:Ek; simpl.
    + intros [= <-]. split; [auto|]. split; [assumption|].
      intros i [<-|Hi] _; [lia|]. apply nulls_from_lower in Hi. lia.
    + intros H. destruct (IH _ _ H) as (Hin & Hf & Hleast).
      split; [auto|]. split; [assumption|].
      intros i [<-|Hi] Hfi; [congruence | auto].
  - apply IH.
Qed.

Lemma maximum_upper (l : list Z) v : In v l -> v <= maximum 0 l.
Proof.
  destruct l as [|a l]; [intros []|]. simpl.
  revert a. induction l as [|b l IH]; intros a; simpl.
  - intros [H|[]]. lia.
  - pose proof (fold_max_lower l (Z.max a b)) as Hlow.
    intros [H|[H|H]]; [lia | lia |].
    apply IH. right. exact H.
Qed.

(** What the reference choice is: an empty cell whose value no empty cell
    exceeds, and the lowest-numbered such cell. *)
Lemma reference_choice_least squares m :
  reference_choice squares = Some m ->
  squares !! m = Some Null
  /\ (forall i, squares !! i = Some Null ->
        move_value squares i <= move_value squares m)
  /\ (forall i, squares !! i = Some Null ->
        move_value squares i = move_value squares m -> (m <= i)%nat).
Proof.
  unfold reference_choice. rewrite empty_cells_nulls. intros H.
  apply head_filter_nulls_least in H as (Hin & Hbest & Hleast).
  apply Z.eqb_eq in Hbest.
  split; [now apply In_nulls|]. split.
  - intros i Hi. rewrite Hbest. apply maximum_upper, in_map, In_nulls, Hi.
  - intros i Hi Heq. apply Hleast; [now apply In_nulls|].
    apply Z.eqb_eq. congruence.
Qed.

Lemma reference_choice_nonterminal squares :
  fst (checkWinner squares) = None -> is_Some (reference_choice squares).
Proof.
  intros H. apply nonterminal_has_empty in H.
  unfold reference_choice. rewrite empty_cells_nulls.
  set (l := nulls_from 0 squares) in *.
  set (mv := move_value squares).
  destruct l as [|m l]; [congruence|]. clearbody mv. clear H.
  assert (Hex : exists i, In i (m :: l) /\ mv i = maximum 0 (map mv (m :: l))).
  { simpl. generalize m. clear m.
    induction l as [|j l IH]; intros m; simpl.
    - exists m. auto.
    - destruct (IH (if mv m <? mv j then j else m)) as (i & Hi & Hv).
      exists i. split.
      + destruct Hi as [<-|Hi]; [|auto].
        destruct (mv m <? mv j); auto.
      + rewrite Hv. f_equal.
        destruct (Z.ltb_spec (mv m) (mv j)); lia. }
  destruct Hex as (i & Hi & Hv).
  destruct (List.filter _ (m :: l)) as [|c r] eqn:E.
  - exfalso. assert (Hin : In i []).
    { rewrite <- E. apply filter_In. split; [assumption|]. now apply Z.eqb_eq. }
    destruct Hin.
  - simpl. eauto.
Qed.

(** C2.  On every board on which the game is not decided (no line, and so
    at least one empty cell), the hard strategy returns a cell [m] that is
    the reference choice: an empty cell, of the largest minimax value among
    the empty cells (leaves scored 10 - depth for a win of O, depth - 10
    for a win of X and 0 for a draw; O maximising and X minimising), and
    the lowest-numbered cell of that value. *)
Theorem hard_move_is_reference_choice rnd squares :
  fst (checkWinner squares) = None ->
  exists m,
    getAIMove Hard rnd squares = Some (Some m, squares)
    /\ reference_choice squares = Some m
    /\ squares !! m = Some Null
    /\ (forall i, squares !! i = Some Null ->
          move_value squares i <= move_value squares m)
    /\ (forall i, squares !! i = Some Null ->
          move_value squares i = move_value squares m -> (m <= i)%nat).
Proof.
  intros H. destruct (reference_choice_nonterminal _ H) as [m Hm].
  exists m. rewrite getAIMove_hard, Hm.
  split; [reflexivity|]. split; [reflexivity|].
  apply reference_choice_least, Hm.
Qed.

Lemma hard_move_is_reference_choice_witness :
  exists m,
    getAIMove Hard (mkRandom true 5)
      [Mark X; Null; Null; Null; Mark O; Null; Null; Null; Mark X]
    = Some (Some m, [Mark X; Null; Null; Null; Mark O; Null; Null; Null; Mark X])
    /\ reference_choice
         [Mark X; Null; Null; Null; Mark O; Null; Null; Null; Mark X]
       = Some m.
Proof.
  destruct (hard_move_is_reference_choice (mkRandom true 5)
              [Mark X; Null; Null; Null; Mark O; Null; Null; Null; Mark X]
              eq_refl) as (m & Hmove & Href & _).
  exists m. split; assumption.
Defined.

(** C3.  On [row_0_threat] the hard strategy returns cell 2.  An O there
    completes no line; an X there would complete row 0. *)
Theorem hard_blocks_row_0 :
  (forall rnd, getAIMove Hard rnd row_0_threat = Some (Some 2%nat, row_0_threat))
  /\ checkWinner (store row_0_threat 2 (Mark O)) = (None, None)
  /\ checkWinner (store row_0_threat 2 (Mark X))
     = (Some (Win X), Some (0, 1, 2)%nat).
Proof.
  split; [|split]; [|reflexivity|reflexivity].
  intros rnd. vm_compute. reflexivity.
Qed.

(** C9.  On every board, at every depth and for either player, [minimax]
    returns (the fuel it is given is enough) and the array it was given is
    then what it was at entry; the same holds of [getAIMove] at every
    difficulty and for every draw. *)
Theorem search_restores_board :
  (forall squares depth isMaximizing,
     exists score, minimax squares depth isMaximizing = Some (score, squares))
  /\ (forall d rnd squares,
        exists aiMove, getAIMove d rnd squares = Some (aiMove, squares)).
Proof.
  split.
  - intros squares depth isMaximizing. eexists. apply minimax_value.
  - apply getAIMove_restores.
Qed.

(** *** A click outside the board *)

Lemma first_line_agree squares squares' (lines : list Line) :
  (forall a b c, In (a, b, c) lines ->
     read squares' a = read squares a
     /\ read squares' b = read squares b
     /\ read squares' c = read squares c) ->
  first_line squares' lines = first_line squares lines.
Proof.
  induction lines as [|[[a b] c] lines IH]; intros H; [reflexivity|].
  simpl. destruct (H a b c (or_introl eq_refl)) as (-> & -> & ->).
  rewrite IH by (intros; apply H; right; assumption).
  reflexivity.
Qed.

Lemma lines_on_board a b c :
  In (a, b, c) WINNING_COMBINATIONS -> (a < 9 /\ b < 9 /\ c < 9)%nat.
Proof.
  unfold WINNING_COMBINATIONS. simpl.
  intros H. repeat destruct H as [H|H]; try (injection H as <- <- <-; lia).
  destruct H.
Qed.

Lemma checkWinner_append squares more :
  (length squares = 9)%nat ->
  fst (checkWinner squares) = None ->
  checkWinner (squares ++ more) = (None, None).
Proof.
  intros Hlen. unfold checkWinner.
  assert (Hread : forall i, (i < 9)%nat -> read (squares ++ more) i = read squares i).
  { intros i Hi. unfold read. now rewrite lookup_app_l by lia. }
  rewrite (first_line_agree squares (squares ++ more)).
  - destruct (first_line squares WINNING_COMBINATIONS) as [[p line]|];
      [discriminate|].
    rewrite forallb_app.
    destruct (forallb _ squares); [discriminate | reflexivity].
  - intros a b c Hin. apply lines_on_board in Hin as (Ha & Hb & Hc).
    auto.
Qed.

(** C4, as written, fails: on the initial state a click on cell 9 is not
    rejected.  The mark is stored in a tenth slot and the turn passes. *)
Lemma click_on_cell_9 :
  board (handleClick initial (Some 9))
  = [Null; Null; Null; Null; Null; Null; Null; Null; Null; Mark X]
  /\ board initial = [Null; Null; Null; Null; Null; Null; Null; Null; Null]
  /\ currentPlayer (handleClick initial (Some 9)) = O
  /\ currentPlayer initial = X
  /\ handleClick initial (Some 9) <> initial.
Proof. repeat split. discriminate. Qed.

(** C4, amended.  For a cell index outside 0-8:
    - when the game is decided (a winner or a draw is recorded), the play
      changes nothing;
    - when the game is on, there is no range check: on a board of nine
      cells that is not decided, an index above 8 (and below the largest
      array length) is played.  The mark is stored in a new slot at that
      index (the slots in between are holes), cells 0-8, stats and
      winningLine are unchanged, no result is recorded and the turn passes
      to the other mark. *)
Theorem play_outside_the_board s index :
  index < 0 \/ 8 < index ->
  (winner s <> None -> handleClick s (Some index) = s)
  /\ (winner s = None ->
      8 < index < 2 ^ 32 - 1 ->
      length (board s) = 9%nat ->
      fst (checkWinner (board s)) = None ->
      let s' := handleClick s (Some index) in
      board s'
      = board s ++ replicate (Z.to_nat index - 9) Undefined
          ++ [Mark (currentPlayer s)]
      /\ (forall i, (i < 9)%nat -> board s' !! i = board s !! i)
      /\ currentPlayer s' = other (currentPlayer s)
      /\ winner s' = None
      /\ stats s' = stats s
      /\ winningLine s' = winningLine s
      /\ gameMode s' = gameMode s
      /\ difficulty s' = difficulty s).
Proof.
  intros Hrange. split.
  - intros Hw. unfold handleClick.
    destruct (winner s); [|congruence].
    rewrite bool_decide_eq_true_2 by eauto. now rewrite orb_true_r.
  - intros Hw [Hlow Hhigh] Hlen Hboard. cbv zeta.
    assert (Hpos : (0 <=? index) = true) by (apply Z.leb_le; lia).
    assert (Hfree : truthy (read_key (board s) (Some index)) = false).
    { unfold read_key. rewrite Hpos.
      unfold read. rewrite (proj2 (lookup_ge_None _ _)) by lia. reflexivity. }
    unfold handleClick.
    rewrite Hfree, Hw.
    rewrite bool_decide_eq_false_2 by (intros [r Hr]; discriminate).
    cbn [orb]. unfold store_key. rewrite Hpos.
    unfold store.
    destruct (Nat.ltb_spec (Z.to_nat index) (length (board s))); [lia|].
    rewrite checkWinner_append by assumption.
    cbn [board currentPlayer winner stats winningLine gameMode difficulty].
    rewrite Hlen.
    repeat split; try reflexivity.
    intros i Hi. now rewrite lookup_app_l by lia.
Qed.

(** Cell 11 after two moves of a game between two people. *)
Lemma play_outside_the_board_witness :
  let s := handleClick (handleClick initial (Some 4)) (Some 0) in
  let s' := handleClick s (Some 11) in
  board s'
  = [Mark O; Null; Null; Null; Mark X; Null; Null; Null; Null;
     Undefined; Undefined; Mark X]
  /\ currentPlayer s' = O
  /\ winner s' = None.
Proof.
  intros s s'.
  destruct (play_outside_the_board s 11 ltac:(right; lia)) as [_ H].
  destruct (H eq_refl ltac:(lia) eq_refl eq_refl) as (Hb & _ & Hp & Hw & _).
  split; [exact Hb|]. split; [exact Hp | exact Hw].
Defined.

(** *** Playing against the hard strategy *)

Lemma handleClick_decided s index r :
  winner s = Some r -> handleClick s index = s.
Proof.
  intros H. unfold handleClick. rewrite H.
  rewrite bool_decide_eq_true_2 by eauto. now rewrite orb_true_r.
Qed.

Lemma handleClick_marked s index :
  truthy (read_key (board s) index) = true -> handleClick s index = s.
Proof. intros H. unfold handleClick. now rewrite H. Qed.

Lemma Player_eqb_refl p : Player_eqb p p = true.
Proof. destruct p; reflexivity. Qed.

Lemma click_nothing s index rnd :
  handleClick s (Some index) = s -> click s index rnd = s.
Proof. intros H. unfold click. rewrite H, Player_eqb_refl. reflexivity. Qed.

Lemma handleClick_settings s index :
  gameMode (handleClick s index) = gameMode s
  /\ difficulty (handleClick s index) = difficulty s.
Proof.
  unfold handleClick. destruct (_ || _); [auto|].
  destruct (checkWinner _) as [[w|] line]; auto.
Qed.

Lemma aiEffect_hard s rnd rnd' :
  difficulty s = Hard -> aiEffect s rnd = aiEffect s rnd'.
Proof.
  intros H. unfold aiEffect. rewrite H, !getAIMove_hard. reflexivity.
Qed.

Lemma aiEffect_settings s rnd :
  gameMode (aiEffect s rnd) = gameMode s
  /\ difficulty (aiEffect s rnd) = difficulty s.
Proof.
  unfold aiEffect. destruct (_ && _); [|auto].
  destruct (getAIMove _ _ _) as [[aiMove b]|]; [|auto].
  apply handleClick_settings.
Qed.

Lemma click_hard s index rnd rnd' :
  difficulty s = Hard ->
  click s index rnd = click s index rnd'
  /\ difficulty (click s index rnd) = Hard.
Proof.
  intros H. unfold click.
  destruct (handleClick_settings s (Some index)) as [_ Hd].
  destruct (Player_eqb _ _).
  - split; [reflexivity | congruence].
  - split; [apply aiEffect_hard; congruence|].
    destruct (aiEffect_settings (handleClick s (Some index)) rnd) as [_ ->].
    congruence.
Qed.

Lemma In_buttons index : 0 <= index <= 8 -> In index buttons.
Proof.
  intros H. unfold buttons.
  replace index with (Z.of_nat (Z.to_nat index)) by lia.
  apply in_map, in_seq. lia.
Qed.

(** Exploring the tree is enough: what [safe] accepts cannot be won by X,
    whatever is clicked and whatever is drawn. *)
Lemma safe_sound (moves : list (Z * Random)) :
  forall n s,
    safe n s = true ->
    difficulty s = Hard ->
    Forall (fun move => 0 <= fst move <= 8) moves ->
    winner (play s moves) <> Some (Win X).
Proof.
  induction moves as [|[index rnd] moves IH]; intros n s Hsafe Hhard Hmoves.
  - simpl. intros Hw. destruct n; simpl in Hsafe; rewrite Hw in Hsafe;
      discriminate.
  - inversion Hmoves as [|move rest Hindex Hrest]; subst. simpl in Hindex.
    change (play s ((index, rnd) :: moves))
      with (play (click s index rnd) moves).
    destruct (winner s) as [r|] eqn:Hw.
    + rewrite click_nothing by (eapply handleClick_decided, Hw).
      apply (IH n); assumption.
    + destruct n as [|n]; cbn [safe] in Hsafe; rewrite Hw in Hsafe;
        [discriminate|].
      rewrite forallb_forall in Hsafe.
      pose proof (Hsafe index (In_buttons index Hindex)) as Hthis.
      apply orb_true_iff in Hthis as [Hmarked|Hnext].
      * rewrite click_nothing by (apply handleClick_marked, Hmarked).
        apply (IH (S n)); [|assumption..].
        cbn [safe]. rewrite Hw. apply forallb_forall. assumption.
      * destruct (click_hard s index rnd (mkRandom false 0) Hhard)
          as [Hsame Hhard'].
        rewrite Hsame. apply (IH n); [assumption| |assumption].
        rewrite <- Hsame. exact Hhard'.
Qed.

Lemma safe_hard_start : safe 5 hard_start = true.
Proof. vm_cast_no_check (eq_refl true). Qed.

Lemma handleClick_same_game s t index :
  same_game s t -> same_game (handleClick s index) (handleClick t index).
Proof.
  destruct s, t. unfold same_game. simpl.
  intros (-> & -> & -> & -> & ->).
  unfold handleClick. simpl.
  destruct (_ || _); simpl; [auto 6|].
  destruct (checkWinner _) as [[w|] line]; simpl; auto 6.
Qed.

Lemma aiEffect_same_game s t rnd :
  same_game s t -> same_game (aiEffect s rnd) (aiEffect t rnd).
Proof.
  intros H. pose proof H as (Hb & Hp & Hw & Hm & Hd).
  unfold aiEffect. rewrite Hb, Hp, Hw, Hm, Hd.
  destruct (_ && _); [|assumption].
  destruct (getAIMove _ _ _) as [[aiMove b]|]; [|assumption].
  apply handleClick_same_game, H.
Qed.

Lemma click_same_game s t index rnd :
  same_game s t -> same_game (click s index rnd) (click t index rnd).
Proof.
  intros H. unfold click.
  pose proof (handleClick_same_game s t (Some index) H) as H'.
  destruct H as (_ & Hp & _), H' as (Hb' & Hp' & Hrest).
  rewrite Hp, Hp'.
  destruct (Player_eqb _ _).
  - repeat split; tauto.
  - apply aiEffect_same_game. repeat split; tauto.
Qed.

Lemma play_same_game moves :
  forall s t, same_game s t -> same_game (play s moves) (play t moves).
Proof.
  induction moves as [|[index rnd] moves IH]; intros s t H; [exact H|].
  apply (IH (click s index rnd) (click t index rnd)), click_same_game, H.
Qed.

(** C1.  In AI mode at difficulty hard, from the empty board with X to
    move (whatever the statistics), after every sequence of clicks on the
    nine cells, each click that leaves the game undecided being answered by
    the move of the hard strategy, X has not won: a recorded result is a
    draw or a win of O. *)
Theorem hard_ai_never_loses (s : State) (moves : list (Z * Random)) :
  board s = replicate 9 Null ->
  currentPlayer s = X ->
  winner s = None ->
  gameMode s = AI ->
  difficulty s = Hard ->
  Forall (fun move => 0 <= fst move <= 8) moves ->
  winner (play s moves) <> Some (Win X)
  /\ forall result,
       winner (play s moves) = Some result -> result = Draw \/ result = Win O.
Proof.
  intros Hb Hp Hw Hm Hd Hmoves.
  assert (Hsame : same_game s hard_start) by (repeat split; assumption).
  destruct (play_same_game moves _ _ Hsame) as (_ & _ & Hwin & _).
  assert (Hnot : winner (play s moves) <> Some (Win X)).
  { rewrite Hwin.
    apply (safe_sound moves 5 hard_start safe_hard_start eq_refl Hmoves). }
  split; [exact Hnot|].
  intros [[|]|] Hr; [congruence | auto | auto].
Qed.

(** X takes two corners, clicks a marked cell and misses the block; O wins
    on the middle column, and the last click comes after the end. *)
Lemma hard_ai_never_loses_witness :
  winner (play hard_start
            [(0, mkRandom false 0); (8, mkRandom false 1);
             (1, mkRandom true 2); (6, mkRandom false 3);
             (5, mkRandom false 4)])
  <> Some (Win X).
Proof.
  apply (hard_ai_never_loses hard_start); try reflexivity.
  repeat constructor; simpl; lia.
Defined.

End TicTacToeFacts.

(** * Further properties of the code *)

(** ** Snake: runs, keys, pause, game over *)

Module SnakeMore.
Import Snake.

Lemma same_cell_eq a b : same_cell a b = true <-> a = b.
Proof.
  destruct a as [ax ay], b as [bx b_y]. unfold same_cell. simpl.
  rewrite andb_true_iff, !Z.eqb_eq. split.
  - intros [-> ->]. reflexivity.
  - intros [= -> ->]. auto.
Qed.

Lemma hit_In h (l : list Position) :
  existsb (fun segment => same_cell segment h) l = true <-> In h l.
Proof.
  rewrite existsb_exists. split.
  - intros (seg & Hin & Heq). apply same_cell_eq in Heq. now subst.
  - intros Hin. exists h. split; [assumption|]. now apply same_cell_eq.
Qed.

Lemma removelast_snoc {A} (l : list A) :
  l <> [] -> exists z, l = removelast l ++ [z].
Proof.
  induction l as [|a l IH]; [congruence|]. intros _.
  destruct l as [|b l].
  - exists a. reflexivity.
  - destruct IH as [z Hz]; [discriminate|]. exists z.
    change (removelast (a :: b :: l)) with (a :: removelast (b :: l)).
    cbn [app]. now rewrite <- Hz.
Qed.

Lemma generateFood_in_grid rx ry : in_grid (generateFood rx ry).
Proof.
  unfold in_grid, generateFood, GRID_SIZE. simpl.
  split; apply Z.mod_pos_bound; lia.
Qed.

Lemma moveSnake_consistent s rx ry s' :
  well_formed s -> consistent s ->
  moveSnake s rx ry = Some s' -> consistent s'.
Proof.
  intros (Hd & head & rest & Hs & Hg) (Hnd & Hall & Hfood & Hlen).
  unfold moveSnake. cbv zeta.
  destruct (gameOver s || isPaused s).
  { intros [= <-]. unfold consistent. auto. }
  rewrite Hs in *.
  set (h := newHead head (direction s)).
  destruct (existsb _ _) eqn:Hhit.
  { intros [= <-]. unfold consistent. cbn [snake food score]. auto. }
  assert (Hnot : ~ In h (head :: rest)).
  { rewrite <- hit_In, Hhit. discriminate. }
  assert (Hh : in_grid h) by (apply SnakeFacts.newHead_in_grid; assumption).
  assert (Hnd' : NoDup (h :: head :: rest)).
  { apply NoDup_cons. split; [|assumption].
    rewrite list_elem_of_In. exact Hnot. }
  assert (Hall' : Forall in_grid (h :: head :: rest))
    by (constructor; assumption).
  destruct (removelast_snoc (h :: head :: rest)) as [z Hz]; [discriminate|].
  pose proof (SnakeFacts.length_removelast_cons h (head :: rest)) as Hlen'.
  set (ns := removelast (h :: head :: rest)) in *.
  clearbody ns.
  destruct (same_cell h (food s)); intros [= <-]; unfold consistent;
    cbn [snake food score].
  - split; [assumption|]. split; [assumption|].
    split; [apply generateFood_in_grid|].
    cbn [length] in *. lia.
  - rewrite Hz in Hnd', Hall'.
    apply NoDup_app in Hnd' as (Hnd' & _).
    apply Forall_app in Hall' as (Hall' & _).
    split; [assumption|]. split; [assumption|]. split; [assumption|].
    rewrite Hlen'. assumption.
Qed.

Lemma handleKeyPress_consistent s k :
  consistent s -> consistent (handleKeyPress s k).
Proof.
  intros H. destruct k; simpl; try assumption;
    match goal with
    | |- context [if ?c then _ else _] => destruct c
    end; assumption.
Qed.

Lemma resetGame_consistent s rx ry : consistent (resetGame s rx ry).
Proof.
  unfold consistent, resetGame, INITIAL_SNAKE. cbn [snake food score].
  split; [apply NoDup_singleton|].
  split; [repeat constructor; unfold GRID_SIZE; simpl; lia|].
  split; [apply generateFood_in_grid | reflexivity].
Qed.

Lemma initial_consistent : consistent initial.
Proof.
  unfold consistent, initial, INITIAL_SNAKE, in_grid, GRID_SIZE.
  cbn [snake food score x y].
  split; [apply NoDup_singleton|].
  split; [repeat constructor; simpl; lia|].
  split; [lia | reflexivity].
Qed.

Lemma run_from_consistent events :
  forall s, well_formed s -> consistent s ->
  exists s', run_from s events = Some s' /\ well_formed s' /\ consistent s'.
Proof.
  induction events as [|e events IH]; intros s Hw Hc; simpl.
  - eauto.
  - destruct e as [rx ry|k|rx ry]; simpl.
    + destruct (SnakeFacts.moveSnake_well_formed s rx ry Hw) as (s' & Hm & Hw').
      rewrite Hm. apply IH; [assumption|].
      exact (moveSnake_consistent s rx ry s' Hw Hc Hm).
    + apply IH; [apply SnakeFacts.handleKeyPress_well_formed, Hw|].
      apply handleKeyPress_consistent, Hc.
    + apply IH; [apply SnakeFacts.resetGame_well_formed|].
      apply resetGame_consistent.
Qed.

(** X1.  After every sequence of ticks, key presses and restarts the
    component is in a state (no run stops on the empty-snake error) in which
    the segments are pairwise distinct, every segment lies on the grid, and
    so does the food. *)
Theorem snake_never_overlaps_or_leaves events :
  exists s,
    run events = Some s
    /\ NoDup (snake s)
    /\ Forall in_grid (snake s)
    /\ in_grid (food s).
Proof.
  destruct (run_from_consistent events initial
              SnakeFacts.initial_well_formed initial_consistent)
    as (s & Hrun & _ & Hnd & Hall & Hfood & _).
  exists s. auto.
Qed.

(** X2.  On every run the score is the number of segments less one: each
    food eaten adds one segment and one point, and a restart resets both. *)
Theorem snake_score_counts_segments events :
  exists s,
    run events = Some s
    /\ Z.of_nat (length (snake s)) = score s + 1.
Proof.
  destruct (run_from_consistent events initial
              SnakeFacts.initial_well_formed initial_consistent)
    as (s & Hrun & _ & _ & _ & _ & Hlen).
  exists s. auto.
Qed.

Lemma unit_step_cases d :
  unit_step d ->
  d = mkPos 1 0 \/ d = mkPos (-1) 0 \/ d = mkPos 0 1 \/ d = mkPos 0 (-1).
Proof.
  destruct d as [dx dy]. unfold unit_step. simpl.
  intros [[Hx ->]|[-> Hy]].
  - destruct (Z.abs_eq_or_opp dx) as [E|E]; rewrite E in Hx.
    + subst. auto.
    + right. left. f_equal. lia.
  - destruct (Z.abs_eq_or_opp dy) as [E|E]; rewrite E in Hy.
    + subst. auto.
    + right. right. right. f_equal. lia.
Qed.



(** X4.  The guard compares a key with the direction last set, not with the
    direction of the last move, so two key presses between two ticks do
    reverse the snake.  In every state where the game is on and the second
    segment lies right behind the head, there are two keys after which the
    next tick runs the head into that segment and ends the game. *)
Theorem two_keys_reverse_and_end_the_game s head second rest rx ry :
  gameOver s = false ->
  isPaused s = false ->
  unit_step (direction s) ->
  snake s = head :: second :: rest ->
  second = newHead head (opposite (direction s)) ->
  exists k1 k2 s',
    direction (handleKeyPress (handleKeyPress s k1) k2)
    = opposite (direction s)
    /\ moveSnake (handleKeyPress (handleKeyPress s k1) k2) rx ry = Some s'
    /\ gameOver s' = true
    /\ snake s' = snake s.
Proof.
  intros Hover Hpaused Hd Hs Hsecond. apply unit_step_cases in Hd.
  destruct s as [sn d fd over pts paused]. cbn [direction gameOver isPaused snake] in *.
  subst sn over paused.
  assert (Hhit : forall h, h = second ->
            existsb (fun segment => same_cell segment h)
              (head :: second :: rest) = true).
  { intros h ->. apply hit_In. right. left. reflexivity. }
  destruct Hd as [-> | [-> | [-> | ->]]].
  - exists ArrowUp, ArrowLeft. eexists. split; [reflexivity|].
    unfold moveSnake. simpl handleKeyPress. cbn [gameOver isPaused orb snake direction].
    rewrite Hhit by (symmetry; exact Hsecond). repeat split.
  - exists ArrowUp, ArrowRight. eexists. split; [reflexivity|].
    unfold moveSnake. simpl handleKeyPress. cbn [gameOver isPaused orb snake direction].
    rewrite Hhit by (symmetry; exact Hsecond). repeat split.
  - exists ArrowLeft, ArrowUp. eexists. split; [reflexivity|].
    unfold moveSnake. simpl handleKeyPress. cbn [gameOver isPaused orb snake direction].
    rewrite Hhit by (symmetry; exact Hsecond). repeat split.
  - exists ArrowLeft, ArrowDown. eexists. split; [reflexivity|].
    unfold moveSnake. simpl handleKeyPress. cbn [gameOver isPaused orb snake direction].
    rewrite Hhit by (symmetry; exact Hsecond). repeat split.
Qed.

(** A snake of two segments moving right, as after the first food. *)
Lemma two_keys_reverse_and_end_the_game_witness :
  exists k1 k2 s',
    direction
      (handleKeyPress
         (handleKeyPress
            (mkState [mkPos 10 10; mkPos 9 10] (mkPos 1 0) (mkPos 3 3)
               false 1 false) k1) k2)
    = mkPos (-1) 0
    /\ moveSnake
         (handleKeyPress
            (handleKeyPress
               (mkState [mkPos 10 10; mkPos 9 10] (mkPos 1 0) (mkPos 3 3)
                  false 1 false) k1) k2) 0 0 = Some s'
    /\ gameOver s' = true
    /\ snake s' = [mkPos 10 10; mkPos 9 10].
Proof.
  apply (two_keys_reverse_and_end_the_game
           (mkState [mkPos 10 10; mkPos 9 10] (mkPos 1 0) (mkPos 3 3)
              false 1 false) (mkPos 10 10) (mkPos 9 10) [] 0 0);
    try reflexivity.
  left. split; reflexivity.
Defined.

Lemma run_from_app events :
  forall s events',
    run_from s (events ++ events')
    = match run_from s events with
      | Some s' => run_from s' events'
      | None => None
      end.
Proof.
  induction events as [|e events IH]; intros s events'; simpl; [reflexivity|].
  destruct (step s e); [apply IH | reflexivity].
Qed.

Lemma paused_ticks s draws :
  isPaused s = true -> run_from s (ticks draws) = Some s.
Proof.
  intros H. induction draws as [|[rx ry] draws IH]; simpl; [reflexivity|].
  unfold moveSnake. rewrite H, orb_true_r. exact IH.
Qed.

(** X5.  Pausing, any number of ticks, and resuming give back the very
    state the game was paused in: no tick acts while the game is paused. *)
Theorem pause_and_resume s draws :
  isPaused s = false ->
  run_from s (KeyDown Space :: ticks draws ++ [KeyDown Space]) = Some s.
Proof.
  intros H. cbn [run_from step].
  rewrite run_from_app, paused_ticks by (simpl; now rewrite H).
  cbn [run_from step].
  destruct s as [sn d fd over pts paused]. cbn [isPaused] in H. subst paused.
  reflexivity.
Qed.

Lemma pause_and_resume_witness :
  run_from initial
    (KeyDown Space :: ticks [(1, 2); (3, 4); (5, 6)]%nat ++ [KeyDown Space])
  = Some initial.
Proof. apply pause_and_resume. reflexivity. Defined.

(** X6.  Once the game is over, ticks and key presses change neither the
    segments nor the score nor the food, and the game stays over: only a
    restart leaves that state. *)
Theorem game_over_is_final s events :
  gameOver s = true ->
  Forall no_restart events ->
  exists s',
    run_from s events = Some s'
    /\ gameOver s' = true
    /\ snake s' = snake s
    /\ score s' = score s
    /\ food s' = food s.
Proof.
  intros Hover Hev. revert s Hover.
  induction Hev as [|e events He Hev IH]; intros s Hover; simpl.
  - eauto 6.
  - destruct e as [rx ry|k|rx ry]; simpl in *; [| |destruct He].
    + unfold moveSnake. rewrite Hover. simpl. apply IH, Hover.
    + destruct (IH (handleKeyPress s k)) as (s' & Hrun & Ho & Hs & Hsc & Hf).
      { destruct k; simpl; try assumption;
          match goal with
          | |- context [if ?c then _ else _] => destruct c
          end; assumption. }
      exists s'. split; [assumption|]. split; [assumption|].
      rewrite Hs, Hsc, Hf.
      destruct k; simpl; auto;
        match goal with
        | |- context [if ?c then _ else _] => destruct c
        end; auto.
Qed.

(** The state the food-on-tail run ends in, one tick later. *)
Lemma game_over_is_final_witness :
  exists s',
    run_from
      (mkState [mkPos 14 14; mkPos 14 15; mkPos 15 15; mkPos 15 14]
         (mkPos 1 0) (mkPos 15 14) true 3 false)
      [Tick 1 1; KeyDown ArrowUp; Tick 2 2; KeyDown Space]%nat = Some s'
    /\ gameOver s' = true
    /\ snake s' = [mkPos 14 14; mkPos 14 15; mkPos 15 15; mkPos 15 14]
    /\ score s' = 3
    /\ food s' = mkPos 15 14.
Proof.
  apply (game_over_is_final
           (mkState [mkPos 14 14; mkPos 14 15; mkPos 15 15; mkPos 15 14]
              (mkPos 1 0) (mkPos 15 14) true 3 false)).
  - reflexivity.
  - repeat constructor.
Defined.

End SnakeMore.

(** ** Maze chase: the maze, the dots, the score, winning and losing *)

Module PacmanMore.
Import Pacman.

Lemma same_cell_iff a b : same_cell a b = true <-> a = b.
Proof.
  destruct a as [ax ay], b as [bx b_y]. unfold same_cell. simpl.
  rewrite andb_true_iff, !Z.eqb_eq. split.
  - intros [-> ->]. reflexivity.
  - intros [= -> ->]. auto.
Qed.

Lemma border_walled_true : border_walled = true.
Proof. vm_compute. reflexivity. Qed.

Lemma border_is_wall i :
  0 <= i <= 14 ->
  isWall (mkPos i 0) = true /\ isWall (mkPos i 14) = true
  /\ isWall (mkPos 0 i) = true /\ isWall (mkPos 14 i) = true.
Proof.
  intros Hi.
  pose proof border_walled_true as H.
  unfold border_walled in H. rewrite forallb_forall in H.
  assert (Hin : In i (map Z.of_nat (seq 0 15))).
  { replace i with (Z.of_nat (Z.to_nat i)) by lia. apply in_map, in_seq. lia. }
  specialize (H i Hin).
  rewrite !andb_true_iff in H. tauto.
Qed.

(** A cell one step from an inner cell is an inner cell unless it is a
    wall. *)
Lemma step_stays_inner p q :
  inner p ->
  Z.abs (x q - x p) + Z.abs (y q - y p) = 1 ->
  isWall q = false ->
  inner q.
Proof.
  destruct p as [px py], q as [qx qy]. unfold inner. simpl.
  intros Hp Hstep Hw.
  assert (Hcases : qx = 0 \/ qx = 14 \/ qy = 0 \/ qy = 14
                   \/ (1 <= qx <= 13 /\ 1 <= qy <= 13)) by lia.
  destruct Hcases as [-> | [-> | [-> | [-> | H]]]]; [| | | |exact H];
    exfalso.
  - destruct (border_is_wall qy) as (_ & _ & H & _); [lia | congruence].
  - destruct (border_is_wall qy) as (_ & _ & _ & H); [lia | congruence].
  - destruct (border_is_wall qx) as (H & _); [lia | congruence].
  - destruct (border_is_wall qx) as (_ & H & _); [lia | congruence].
Qed.

Lemma movePacman_inner d p : inner p -> inner (movePacman d p).
Proof.
  intros Hp.
  destruct (PacmanFacts.movePacman_cases d p) as [[_ ->] | [Hw ->]];
    [assumption|].
  apply (step_stays_inner p); [assumption| |assumption].
  destruct d, p; simpl; lia.
Qed.

Lemma moveGhost_inner r ghost : inner ghost -> inner (moveGhost r ghost).
Proof.
  intros Hg.
  destruct (PacmanFacts.moveGhost_cases r ghost) as [[-> _] | [Hin Hw]];
    [assumption|].
  apply (step_stays_inner ghost); [assumption| |assumption].
  unfold neighbours in Hin. destruct ghost as [gx gy]. simpl in Hin.
  destruct Hin as [<- | [<- | [<- | [<- | []]]]]; simpl; lia.
Qed.

Lemma moveGhosts_inner rnd currentGhosts :
  Forall inner currentGhosts -> Forall inner (moveGhosts rnd currentGhosts).
Proof.
  unfold moveGhosts. intros H. revert rnd.
  induction H as [|g l Hg Hl IH]; intros rnd; simpl.
  - constructor.
  - constructor; [apply moveGhost_inner, Hg | apply (IH (fun i => rnd (S i)))].
Qed.

Lemma moveGhosts_length rnd currentGhosts :
  length (moveGhosts rnd currentGhosts) = length currentGhosts.
Proof. unfold moveGhosts. apply length_imap. Qed.

(** *** [findIndex] and the removal of the dot found *)

Lemma findIndex_Some p l i :
  findIndex p l = Some i -> l !! i = Some p.
Proof.
  revert i. induction l as [|dot rest IH]; intros i; simpl; [discriminate|].
  destruct (same_cell dot p) eqn:E.
  - intros [= <-]. apply same_cell_iff in E. now subst.
  - destruct (findIndex p rest) as [j|]; [|discriminate].
    intros [= <-]. simpl. now apply IH.
Qed.

Lemma findIndex_None p l : findIndex p l = None -> ~ In p l.
Proof.
  induction l as [|dot rest IH]; simpl; [auto|].
  destruct (same_cell dot p) eqn:E; [discriminate|].
  destruct (findIndex p rest) as [j|]; [discriminate|].
  intros _ [->|Hin]; [|now apply IH].
  assert (same_cell p p = true) by now apply same_cell_iff.
  congruence.
Qed.

Lemma delete_removes (l : list Position) i p :
  NoDup l -> l !! i = Some p -> ~ In p (delete i l).
Proof.
  intros Hnd. revert i.
  induction Hnd as [|a l Ha Hnd IH]; intros i; [discriminate|].
  destruct i as [|i]; simpl.
  - intros [= ->]. now rewrite <- list_elem_of_In.
  - intros Hl [->|Hin]; [|now apply (IH i)].
    apply Ha. eapply list_elem_of_lookup_2, Hl.
Qed.

(** *** The invariant *)

Lemma checkEffect_settled s :
  laid_out s -> gameOver s = false -> settled (checkEffect s).
Proof.
  intros (Hp & Hg & Hn & Hnd & Hsub & Hsc & Hwon) Hover.
  unfold checkEffect. fold (collided s).
  destruct (findIndex (pacman s) (dots s)) as [dotIndex|] eqn:E.
  - apply findIndex_Some in E.
    assert (Hlen : length (delete dotIndex (dots s))
                   = (length (dots s) - 1)%nat)
      by (apply length_delete; eauto).
    assert (Hpos : (0 < length (dots s))%nat)
      by (eapply Nat.le_lt_trans; [apply Nat.le_0_l | eapply lookup_lt_Some, E]).
    unfold settled, laid_out, collided.
    cbn [pacman ghosts dots score gameOver gameWon].
    rewrite Hover, Hwon, Hlen.
    split; [|split; [reflexivity | apply delete_removes; assumption]].
    split; [exact Hp|]. split; [exact Hg|]. split; [exact Hn|].
    split; [eapply sublist_NoDup; [exact Hnd | apply sublist_delete]|].
    split; [etransitivity; [apply sublist_delete | exact Hsub]|].
    split; [lia|].
    destruct (Nat.eqb_spec (length (dots s)) 0); [lia | reflexivity].
  - apply findIndex_None in E.
    unfold settled, laid_out, collided.
    cbn [pacman ghosts dots score gameOver gameWon].
    rewrite Hover.
    split; [|split; [reflexivity | exact E]].
    auto 10.
Qed.

Lemma distinct_NoDup l : distinct l = true -> NoDup l.
Proof.
  induction l as [|p rest IH]; simpl; [constructor|].
  rewrite andb_true_iff, negb_true_iff. intros [Hp Hrest].
  apply NoDup_cons. split; [|now apply IH].
  rewrite list_elem_of_In. intros Hin.
  assert (existsb (same_cell p) rest = true).
  { apply existsb_exists. exists p. split; [assumption|].
    now apply same_cell_iff. }
  congruence.
Qed.

Lemma initializeDots_NoDup : NoDup initializeDots.
Proof. apply distinct_NoDup. vm_compute. reflexivity. Qed.

Lemma initial_settled : settled initial.
Proof.
  apply checkEffect_settled; [|reflexivity].
  unfold laid_out. cbn [pacman ghosts dots score gameWon].
  split; [unfold inner, INITIAL_PACMAN; simpl; lia|].
  split; [repeat constructor; simpl; lia|].
  split; [reflexivity|].
  split; [apply initializeDots_NoDup|].
  split; [reflexivity|].
  split; [lia|].
  vm_compute. reflexivity.
Qed.

Lemma step_settled s e : settled s -> settled (step s e).
Proof.
  intros Hs. destruct e as [rnd|d|]; simpl.
  - unfold tick. destruct (gameOver s || gameWon s) eqn:E; [assumption|].
    apply orb_false_iff in E as [Hover Hwon].
    destruct Hs as ((Hp & Hg & Hn & Hrest) & _).
    apply checkEffect_settled; [|exact Hover].
    unfold laid_out. cbn [pacman ghosts dots score gameWon].
    split; [apply movePacman_inner, Hp|].
    split; [apply moveGhosts_inner, Hg|].
    split; [rewrite moveGhosts_length; exact Hn|].
    exact Hrest.
  - exact Hs.
  - apply initial_settled.
Qed.

Lemma run_settled events : settled (run events).
Proof.
  unfold run. generalize initial_settled. generalize initial.
  induction events as [|e events IH]; intros s Hs; simpl; [assumption|].
  apply IH, step_settled, Hs.
Qed.

(** X7.  On every run the player and the ghosts stay inside the border of
    the grid (coordinates 1 to 13), and there are always four ghosts. *)
Theorem nobody_leaves_the_maze events :
  inner (pacman (run events))
  /\ Forall inner (ghosts (run events))
  /\ length (ghosts (run events)) = 4%nat.
Proof.
  destruct (run_settled events) as ((Hp & Hg & Hn & _) & _). auto.
Qed.

(** X8.  On every run the score is ten times the number of dots eaten:
    the score plus ten times the dots left is ten times the dots laid out
    at the start. *)
Theorem score_counts_eaten_dots events :
  score (run events) + 10 * Z.of_nat (length (dots (run events)))
  = 10 * Z.of_nat (length initializeDots).
Proof.
  destruct (run_settled events) as ((_ & _ & _ & _ & _ & Hsc & _) & _).
  exact Hsc.
Qed.

(** X9.  On every run the game is won exactly when no dot is left. *)
Theorem won_iff_no_dots events :
  gameWon (run events) = true <-> dots (run events) = [].
Proof.
  destruct (run_settled events) as ((_ & _ & _ & _ & _ & _ & Hwon) & _).
  rewrite Hwon. rewrite Nat.eqb_eq. split.
  - apply nil_length_inv.
  - intros ->. reflexivity.
Qed.

(** X10.  On every run the game is lost exactly when some ghost is on the
    player's cell. *)
Theorem lost_iff_caught events :
  gameOver (run events) = true
  <-> exists ghost, In ghost (ghosts (run events))
                    /\ ghost = pacman (run events).
Proof.
  destruct (run_settled events) as (_ & Hover & _).
  rewrite Hover. unfold collided. rewrite existsb_exists.
  split; intros (ghost & Hin & Heq); exists ghost; split; try assumption;
    now apply same_cell_iff.
Qed.

(** X11.  Dots are only ever removed: on every run the dots left are a
    sublist of the dots laid out at the start, without repetition, and
    none of them is on the player's cell. *)
Theorem dots_only_shrink events :
  sublist (dots (run events)) initializeDots
  /\ NoDup (dots (run events))
  /\ ~ In (pacman (run events)) (dots (run events)).
Proof.
  destruct (run_settled events) as ((_ & _ & _ & Hnd & Hsub & _) & _ & Hp).
  auto.
Qed.

(** X12.  The dots laid out at the start are exactly the inner cells that
    are not walls. *)
Theorem initializeDots_spec p :
  In p initializeDots <-> inner p /\ isWall p = false.
Proof.
  unfold initializeDots, GRID_SIZE, inner.
  rewrite in_flat_map. split.
  - intros (cx & Hx & Hin). apply in_flat_map in Hin as (cy & Hy & Hin).
    apply in_seq in Hx, Hy.
    destruct (isWall (mkPos (Z.of_nat cx) (Z.of_nat cy))) eqn:Hw;
      [destruct Hin|].
    destruct Hin as [<-|[]]. cbn [x y]. split; [lia | exact Hw].
  - destruct p as [px py]. cbn [x y]. intros [H Hw].
    exists (Z.to_nat px). split; [apply in_seq; lia|].
    apply in_flat_map. exists (Z.to_nat py).
    split; [apply in_seq; lia|].
    rewrite !Z2Nat.id by lia. rewrite Hw. left. reflexivity.
Qed.

End PacmanMore.

(** ** Word guessing: tries, winning, the statistics, the word drawn *)

Module HangmanMore.
Import Hangman.
Local Open Scope string_scope.

(** *** The score of a word *)

Lemma Math_round_mono (p q : Q) : (p <= q)%Q -> (Math_round p <= Math_round q)%Z.
Proof.
  intros H. unfold Math_round. apply Qfloor_resp_le.
  apply Qplus_le_l. exact H.
Qed.

Lemma described_multiplier_range d :
  (1 <= described_multiplier d <= 2)%Q.
Proof. destruct d; simpl; split; discriminate. Qed.

Lemma word_value_nonneg len d :
  (0 <= len)%Z -> (0 <= inject_Z len * 10 * described_multiplier d)%Q.
Proof.
  intros Hlen.
  destruct (described_multiplier_range d) as [Hd _].
  apply Qmult_le_0_compat; [apply Qmult_le_0_compat|].
  - change 0%Q with (inject_Z 0). rewrite <- Zle_Qle. exact Hlen.
  - discriminate.
  - eapply Qle_trans; [|exact Hd]. discriminate.
Qed.

Lemma described_wordScore_mono len d t t' :
  (0 <= len)%Z -> (t <= t')%Z ->
  (described_wordScore len t (described_multiplier d)
   <= described_wordScore len t' (described_multiplier d))%Z.
Proof.
  intros Hlen H. unfold described_wordScore. apply Math_round_mono.
  unfold Qdiv. apply Qmult_le_compat_r; [|discriminate].
  rewrite !(Qmult_comm _ (inject_Z _)).
  apply Qmult_le_compat_r; [now rewrite <- Zle_Qle|].
  apply word_value_nonneg, Hlen.
Qed.

Lemma described_wordScore_no_tries len d :
  described_wordScore len 0 (described_multiplier d) = 0%Z.
Proof.
  unfold described_wordScore.
  transitivity (Math_round 0).
  - apply HangmanFacts.Math_round_comp. unfold MAX_TRIES. field.
  - reflexivity.
Qed.

Lemma described_wordScore_all_tries len d :
  described_wordScore len 6 (described_multiplier d)
  = (len * match d with easy => 10 | medium => 15 | hard => 20 end)%Z.
Proof.
  unfold described_wordScore.
  transitivity
    (Math_round
       (inject_Z
          (len * match d with easy => 10 | medium => 15 | hard => 20 end))).
  - apply HangmanFacts.Math_round_comp. unfold MAX_TRIES.
    rewrite inject_Z_mult.
    destruct d; cbn [described_multiplier];
      [change (inject_Z 10) with 10%Q | change (inject_Z 15) with 15%Q
      | change (inject_Z 20) with 20%Q];
      change (inject_Z 6) with 6%Q; field.
  - unfold Math_round.
    rewrite <- (Qfloor_Z (len
           * match d with easy => 10 | medium => 15 | hard => 20 end)) at 2.
    generalize (len
           * match d with easy => 10 | medium => 15 | hard => 20 end)%Z.
    intros z. unfold Qfloor, inject_Z, Qplus. simpl.
    rewrite Z.mul_1_r, Z.div_1_r.
    symmetry. apply Z.div_unique with (r := 1%Z); simpl; lia.
Qed.

Lemma word_score_mono w d t t' :
  (String.length w <= 64)%nat ->
  (0 <= t)%Z -> (t <= t')%Z -> (t' <= 6)%Z ->
  (calculateWordScore w t d <= calculateWordScore w t' d)%Z.
Proof.
  intros Hlen H0 H H6.
  rewrite !HangmanFacts.calculateWordScore_described by (assumption || lia).
  apply described_wordScore_mono; lia.
Qed.

Lemma word_score_no_tries w d :
  (String.length w <= 64)%nat -> calculateWordScore w 0 d = 0%Z.
Proof.
  intros Hlen.
  rewrite HangmanFacts.calculateWordScore_described by (assumption || lia).
  apply described_wordScore_no_tries.
Qed.

Lemma word_score_all_tries w d :
  (String.length w <= 64)%nat ->
  calculateWordScore w 6 d
  = (Z.of_nat (String.length w)
     * match d with easy => 10 | medium => 15 | hard => 20 end)%Z.
Proof.
  intros Hlen.
  rewrite HangmanFacts.calculateWordScore_described by (assumption || lia).
  apply described_wordScore_all_tries.
Qed.

(** X13.  For a word of at most 64 letters and between 0 and 6 tries (the
    range of the game; the longest word of the lists has 14 letters), the
    score of a word, as the code computes it on doubles, never decreases
    with the tries left; it is 0 with no tries left and, with all six, ten
    points a letter times the multiplier of the difficulty (10, 15 or 20 a
    letter). *)
Theorem word_score_grows_with_tries w d :
  (String.length w <= 64)%nat ->
  (forall t t', (0 <= t)%Z -> (t <= t')%Z -> (t' <= 6)%Z ->
     (calculateWordScore w t d <= calculateWordScore w t' d)%Z)
  /\ calculateWordScore w 0 d = 0%Z
  /\ calculateWordScore w 6 d
     = (Z.of_nat (String.length w)
        * match d with easy => 10 | medium => 15 | hard => 20 end)%Z.
Proof.
  intros Hlen. split; [|split].
  - intros t t'. now apply word_score_mono.
  - now apply word_score_no_tries.
  - now apply word_score_all_tries.
Qed.

Lemma word_score_grows_with_tries_witness :
  (String.length "SPIELBERG" <= 64)%nat
  /\ (calculateWordScore "SPIELBERG" 2 medium
      <= calculateWordScore "SPIELBERG" 5 medium)%Z
  /\ calculateWordScore "SPIELBERG" 0 medium = 0%Z
  /\ calculateWordScore "SPIELBERG" 6 medium = 135%Z.
Proof.
  assert (Hlen : (String.length "SPIELBERG" <= 64)%nat) by (simpl; lia).
  destruct (word_score_grows_with_tries "SPIELBERG" medium Hlen)
    as (Hmono & Hzero & Hsix).
  split; [exact Hlen|]. split; [apply Hmono; lia|].
  split; [exact Hzero | exact Hsix].
Defined.

Lemma calculateWordScore_nonneg w t d :
  (String.length w <= 64)%nat -> (0 <= t <= 6)%Z ->
  (0 <= calculateWordScore w t d)%Z.
Proof.
  intros Hlen H. rewrite <- (word_score_no_tries w d Hlen).
  apply word_score_mono; (assumption || lia).
Qed.

(** *** The characters of the word *)

Lemma includes_char w char :
  In char (chars w) -> includes w char = true.
Proof.
  induction w as [|a rest IH]; simpl; [intros []|].
  intros [<-|Hin].
  - destruct (ascii_dec a a) as [_|Hne]; [|congruence].
    destruct rest; reflexivity.
  - rewrite (IH Hin). apply orb_true_r.
Qed.

Lemma chars_nonempty w : w <> "" -> exists char, In char (chars w).
Proof.
  destruct w as [|a rest]; [congruence|]. intros _.
  eexists. left. reflexivity.
Qed.

Lemma isWon_all_guessed (guessed : gset string) w :
  forallb (fun char => bool_decide (char ∈ guessed)) (chars w) = true
  <-> forall char, In char (chars w) -> char ∈ guessed.
Proof.
  rewrite forallb_forall. split; intros H char Hin.
  - apply (proj1 (bool_decide_eq_true _)), H, Hin.
  - apply bool_decide_eq_true_2, H, Hin.
Qed.

(** *** The word drawn *)

Lemma WORD_LIST_length c : length (WORD_LIST c) = 5%nat.
Proof. destruct c; reflexivity. Qed.

Lemma WORD_LIST_nonempty_words c w :
  In w (WORD_LIST c) -> word w <> "".
Proof.
  destruct c; simpl; intros H;
    repeat (destruct H as [<-|H]; [discriminate|]); destruct H.
Qed.

Lemma initializeGame_word s rnd :
  In (currentWord (initializeGame s rnd)) (WORD_LIST (category s)).
Proof.
  unfold initializeGame. cbn [currentWord].
  destruct (WORD_LIST (category s) !! (rnd mod length (WORD_LIST (category s)))%nat)
    as [w|] eqn:E.
  - simpl. apply list_elem_of_In. eapply list_elem_of_lookup_2, E.
  - exfalso. apply lookup_ge_None in E.
    rewrite WORD_LIST_length in E.
    pose proof (Nat.mod_upper_bound rnd 5). lia.
Qed.

(** X14.  A new round always draws its word from the list of the current
    category, whatever the draw; it starts with no letter guessed, all six
    tries and status playing, and keeps score, high score and streak. *)
Theorem new_round_draws_from_category s rnd :
  In (currentWord (initializeGame s rnd)) (WORD_LIST (category s))
  /\ category (initializeGame s rnd) = category s
  /\ guessedLetters (initializeGame s rnd) = ∅
  /\ remainingTries (initializeGame s rnd) = 6%Z
  /\ gameStatus (initializeGame s rnd) = playing
  /\ score (initializeGame s rnd) = score s
  /\ highScore (initializeGame s rnd) = highScore s
  /\ streak (initializeGame s rnd) = streak s.
Proof.
  split; [apply initializeGame_word|]. repeat split.
Qed.

(** *** The invariant *)

Lemma initial_coherent : coherent initial.
Proof.
  unfold coherent, initial, MAX_TRIES. simpl.
  split; [split; [lia | split; [discriminate | lia]]|].
  split; [split; [discriminate | congruence]|].
  split; lia.
Qed.

Lemma initializeGame_coherent s rnd : coherent s -> coherent (initializeGame s rnd).
Proof.
  intros (_ & _ & Hn & Hlen).
  pose proof (initializeGame_word s rnd) as Hw.
  apply WORD_LIST_nonempty_words in Hw.
  unfold coherent.
  split; [|split; [|split]].
  - unfold initializeGame, MAX_TRIES. simpl.
    split; [lia | split; [discriminate | lia]].
  - split; [discriminate|]. intros _ Hall. exfalso.
    destruct (chars_nonempty _ Hw) as [char Hchar].
    specialize (Hall char Hchar).
    unfold initializeGame in Hall. cbn [guessedLetters] in Hall.
    now apply not_elem_of_empty in Hall.
  - exact Hn.
  - apply HangmanFacts.initializeGame_short, Hlen.
Qed.

Lemma guessLetter_coherent s letter : coherent s -> coherent (guessLetter s letter).
Proof.
  intros Hs. pose proof Hs as ((Ht & Hlost) & (Hwon & Hspelled) & Hn & Hlen).
  unfold guessLetter.
  destruct (gameStatus s) eqn:Hst; cbn [Status_eqb negb]; try exact Hs.
  assert (Htries : (1 <= remainingTries s)%Z).
  { destruct (Z.eq_dec (remainingTries s) 0) as [E|E]; [|lia].
    apply Hlost in E. discriminate. }
  destruct (includes (word (currentWord s)) letter) eqn:Hinc; cbn [negb].
  - (* a hit *)
    destruct (forallb _ _) eqn:Hall.
    + unfold coherent, all_guessed.
      cbn [remainingTries gameStatus currentWord guessedLetters score
           highScore streak].
      split; [split; [lia | split; [discriminate | lia]]|].
      split; [split; [intros _; now apply isWon_all_guessed | auto]|].
      split; [|exact Hlen].
      pose proof (calculateWordScore_nonneg (word (currentWord s))
                    (remainingTries s) (difficulty (currentWord s))
                    ltac:(lia) ltac:(unfold MAX_TRIES in Ht; lia)).
      lia.
    + unfold coherent, all_guessed.
      cbn [remainingTries gameStatus currentWord guessedLetters score
           highScore streak].
      split; [split; [lia | split; [discriminate | lia]]|].
      split; [|exact (conj Hn Hlen)].
      split; [discriminate|]. intros _ H.
      apply isWon_all_guessed in H. congruence.
  - (* a miss *)
    assert (Hnot : word (currentWord s) <> "" ->
              ~ (forall char, In char (chars (word (currentWord s))) ->
                   char ∈ {[letter]} ∪ guessedLetters s)).
    { intros Hw Hall.
      assert (Hold : all_guessed s).
      { intros char Hchar. specialize (Hall char Hchar).
        apply elem_of_union in Hall as [Hl|Hg]; [|exact Hg].
        apply elem_of_singleton in Hl. subst char.
        apply includes_char in Hchar. congruence. }
      specialize (Hspelled Hw Hold). discriminate. }
    destruct (Z.eqb_spec (remainingTries s - 1) 0) as [E|E].
    + unfold coherent, all_guessed.
      cbn [remainingTries gameStatus currentWord guessedLetters score
           highScore streak].
      rewrite E. unfold MAX_TRIES in *.
      split; [split; [lia | split; [reflexivity | reflexivity]]|].
      split; [|split; [lia | exact Hlen]].
      split; [discriminate|]. intros Hw H. now apply Hnot in H.
    + unfold coherent, all_guessed.
      cbn [remainingTries gameStatus currentWord guessedLetters score
           highScore streak].
      split; [split; [lia | split; [discriminate | lia]]|].
      split; [|exact (conj Hn Hlen)].
      split; [discriminate|]. intros Hw H. now apply Hnot in H.
Qed.

Lemma step_coherent s e : coherent s -> coherent (step s e).
Proof.
  intros Hs. destruct e as [letter|rnd|c rnd| |]; simpl.
  - apply guessLetter_coherent, Hs.
  - apply initializeGame_coherent, Hs.
  - unfold selectCategory. apply initializeGame_coherent.
    exact Hs.
  - exact Hs.
  - destruct Hs as (Ht & Hw & _ & Hlen). unfold coherent, resetStats.
    cbn [remainingTries gameStatus currentWord guessedLetters score
         highScore streak].
    split; [exact Ht|]. split; [exact Hw|]. split; [lia | exact Hlen].
Qed.

Lemma run_coherent events : coherent (run events).
Proof.
  unfold run. generalize initial_coherent. generalize initial.
  induction events as [|e events IH]; intros s Hs; simpl; [assumption|].
  apply IH, step_coherent, Hs.
Qed.

(** X15.  On every run, also when a letter is guessed again, the tries
    left stay between 0 and 6, and the round is lost exactly when they are
    0. *)
Theorem tries_in_range_and_lost_at_zero events :
  (0 <= remainingTries (run events) <= 6)%Z
  /\ (gameStatus (run events) = lost <-> remainingTries (run events) = 0%Z).
Proof. destruct (run_coherent events) as (H & _). exact H. Qed.

(** X16.  On every run a round that is won has every character of its word
    among the guessed letters, and (once a word is drawn) a round whose
    word is spelled out by the guessed letters is won. *)
Theorem won_iff_word_spelled events :
  (gameStatus (run events) = won -> all_guessed (run events))
  /\ (word (currentWord (run events)) <> "" ->
      all_guessed (run events) -> gameStatus (run events) = won).
Proof. destruct (run_coherent events) as (_ & H & _). exact H. Qed.

(** X17.  On every run the score, the high score and the streak are never
    negative. *)
Theorem statistics_never_negative events :
  (0 <= score (run events))%Z
  /\ (0 <= highScore (run events))%Z
  /\ (0 <= streak (run events))%Z.
Proof. destruct (run_coherent events) as (_ & _ & H & _). lia. Qed.

(** X18.  Through the on-screen keyboard a letter counts once: a second
    click on the same key changes nothing, in every state. *)
Theorem keyboard_click_twice s letter :
  keyboardClick (keyboardClick s letter) letter = keyboardClick s letter.
Proof.
  destruct (bool_decide (letter ∈ guessedLetters s)
            || negb (Status_eqb (gameStatus s) playing)) eqn:E.
  - assert (Hk : keyboardClick s letter = s)
      by (unfold keyboardClick; now rewrite E).
    now rewrite !Hk.
  - assert (Hk : keyboardClick s letter = guessLetter s letter)
      by (unfold keyboardClick; now rewrite E).
    rewrite Hk.
    apply orb_false_iff in E as [_ Hst]. apply negb_false_iff in Hst.
    assert (Hin : letter ∈ guessedLetters (guessLetter s letter)).
    { unfold guessLetter. rewrite Hst. cbn [negb].
      repeat match goal with
             | |- context [if ?c then _ else _] => destruct c
             end; cbn [guessedLetters]; set_solver. }
    unfold keyboardClick.
    now rewrite (bool_decide_eq_true_2 _ Hin).
Qed.

End HangmanMore.

(** ** Board game: the winner test, the clicks, the runs, the strategies *)

Module TicTacToeMore.
Import TicTacToe.

(** *** [checkWinner] *)

Lemma Cell_eqb_eq c d : Cell_eqb c d = true <-> c = d.
Proof.
  destruct c as [|[|]|], d as [|[|]|]; simpl; split; congruence.
Qed.

Lemma first_line_Some squares lines p line :
  first_line squares lines = Some (p, line) ->
  In line lines /\ has_line squares p line.
Proof.
  induction lines as [|[[a b] c] lines IH]; simpl; [discriminate|].
  destruct (read squares a) as [|q|] eqn:Ea;
    try (intros H; destruct (IH H); auto).
  destruct (Cell_eqb (Mark q) (read squares b)
            && Cell_eqb (Mark q) (read squares c)) eqn:E.
  - intros [= <- <-]. apply andb_true_iff in E as [Eb Ec].
    apply Cell_eqb_eq in Eb, Ec. split; [auto|].
    unfold has_line. auto.
  - intros H; destruct (IH H); auto.
Qed.

Lemma first_line_None squares lines :
  first_line squares lines = None ->
  forall p line, In line lines -> ~ has_line squares p line.
Proof.
  induction lines as [|[[a b] c] lines IH]; simpl; [intros _ p line []|].
  intros H p line [<-|Hin].
  - unfold has_line. intros (Ha & Hb & Hc).
    rewrite Ha, Hb, Hc in H. simpl in H.
    destruct p; discriminate.
  - revert Hin. apply IH.
    destruct (read squares a); try assumption.
    destruct (_ && _); [discriminate | assumption].
Qed.

Lemma forallb_not_null squares :
  forallb (fun square => negb (is_null square)) squares = true
  <-> ~ In Null squares.
Proof.
  rewrite forallb_forall. split.
  - intros H Hin. specialize (H Null Hin). discriminate.
  - intros H c Hin. destruct c; [contradiction | reflexivity | reflexivity].
Qed.

(** X19.  What [checkWinner] reports is what the board shows.  It answers
    in one of three ways: a winner with a line, and then the line is one of
    the eight and its three cells hold the winner's mark; a draw, and then
    no cell is empty and no line is complete; or nothing, and then some
    cell is empty and no line is complete. *)
Theorem checkWinner_reports_the_board squares :
  match checkWinner squares with
  | (Some (Win p), Some line) =>
      In line WINNING_COMBINATIONS /\ has_line squares p line
  | (Some Draw, None) =>
      ~ In Null squares
      /\ forall p line, In line WINNING_COMBINATIONS ->
                        ~ has_line squares p line
  | (None, None) =>
      In Null squares
      /\ forall p line, In line WINNING_COMBINATIONS ->
                        ~ has_line squares p line
  | _ => False
  end.
Proof.
  unfold checkWinner.
  destruct (first_line squares WINNING_COMBINATIONS) as [[p line]|] eqn:E.
  - apply first_line_Some in E. exact E.
  - pose proof (first_line_None _ _ E) as Hno.
    destruct (forallb _ squares) eqn:F.
    + split; [now apply forallb_not_null | exact Hno].
    + split; [|exact Hno].
      clear -F. induction squares as [|cell rest IH]; [discriminate|].
      destruct cell; simpl in F; [left; reflexivity | right; auto ..].
Qed.

(** *** [getEmptySquares] *)

Lemma nulls_from_increasing squares :
  forall k pre m post,
    nulls_from k squares = pre ++ m :: post ->
    forall j, In j post -> (m < j)%nat.
Proof.
  induction squares as [|cell rest IH]; intros k pre m post; simpl.
  - destruct pre; discriminate.
  - destruct (is_null cell); [|apply IH].
    destruct pre as [|a pre]; simpl.
    + intros [= <- <-] j Hj.
      apply TicTacToeFacts.nulls_from_lower in Hj. lia.
    + intros [= _ H]. eapply IH, H.
Qed.

(** X20.  [getEmptySquares] lists exactly the indices of the cells that
    hold [null], each once and in increasing order (every index is smaller
    than those listed after it). *)
Theorem getEmptySquares_lists_empty_cells squares :
  (forall m, In m (getEmptySquares squares) <-> squares !! m = Some Null)
  /\ (forall pre m post,
        getEmptySquares squares = pre ++ m :: post ->
        forall j, In j post -> (m < j)%nat).
Proof.
  rewrite TicTacToeFacts.getEmptySquares_nulls. split.
  - intros m. apply TicTacToeFacts.In_nulls.
  - apply nulls_from_increasing.
Qed.

Lemma getEmptySquares_lists_empty_cells_witness : (1 < 4)%nat.
Proof.
  destruct (getEmptySquares_lists_empty_cells
              [Mark X; Null; Mark O; Null; Null]) as [_ H].
  apply (H [] 1%nat [3; 4]%nat eq_refl 4%nat). right. left. reflexivity.
Defined.

(** *** A click *)

Lemma read_store_other squares i j v :
  i <> j -> read (store squares j v) i = read squares i.
Proof.
  intros Hne. unfold store, read.
  destruct (Nat.ltb_spec j (length squares)) as [Hlt|Hge].
  - now rewrite list_lookup_insert_ne by auto.
  - destruct (Nat.lt_ge_cases i (length squares)) as [Hi|Hi].
    + now rewrite lookup_app_l by assumption.
    + rewrite lookup_app_r by assumption.
      rewrite (proj2 (lookup_ge_None squares i)) by assumption. simpl.
      destruct (Nat.lt_ge_cases (i - length squares) (j - length squares)).
      * rewrite lookup_app_l by (rewrite length_replicate; assumption).
        now rewrite lookup_replicate_2 by assumption.
      * rewrite lookup_app_r by (rewrite length_replicate; assumption).
        rewrite length_replicate.
        destruct (i - length squares - (j - length squares))%nat eqn:E;
          [lia | reflexivity].
Qed.

Lemma store_key_other squares index v i :
  index <> Some (Z.of_nat i) ->
  read (store_key squares index v) i = read squares i.
Proof.
  intros Hne. unfold store_key.
  destruct index as [z|]; [|reflexivity].
  destruct (Z.leb_spec 0 z); [|reflexivity].
  apply read_store_other. intros ->. apply Hne. f_equal. lia.
Qed.

Lemma handleClick_board s index :
  board (handleClick s index) = board s
  \/ (truthy (read_key (board s) index) = false
      /\ winner s = None
      /\ board (handleClick s index)
         = store_key (board s) index (Mark (currentPlayer s))).
Proof.
  unfold handleClick.
  destruct (truthy (read_key (board s) index)) eqn:Ht; [left; reflexivity|].
  destruct (winner s) eqn:Hw.
  - rewrite bool_decide_eq_true_2 by eauto. left. reflexivity.
  - rewrite bool_decide_eq_false_2 by (intros [r Hr]; discriminate).
    right. split; [reflexivity|]. split; [reflexivity|].
    simpl. destruct (checkWinner _) as [[w|] line]; reflexivity.
Qed.

(** X21.  A click changes at most the cell clicked, never a cell that
    holds a mark, and never the mode or the difficulty.  This holds for
    every state and every index, in range or not. *)
Theorem click_touches_one_free_cell s index i :
  (index <> Some (Z.of_nat i) ->
   read (board (handleClick s index)) i = read (board s) i)
  /\ (truthy (read (board s) i) = true ->
      read (board (handleClick s index)) i = read (board s) i)
  /\ gameMode (handleClick s index) = gameMode s
  /\ difficulty (handleClick s index) = difficulty s.
Proof.
  split; [|split; [|apply TicTacToeFacts.handleClick_settings]].
  - intros Hne.
    destruct (handleClick_board s index) as [-> | (_ & _ & ->)];
      [reflexivity|].
    now apply store_key_other.
  - intros Hmark.
    destruct (handleClick_board s index) as [-> | (Hfree & _ & ->)];
      [reflexivity|].
    apply store_key_other. intros ->.
    unfold read_key in Hfree.
    destruct (Z.leb_spec 0 (Z.of_nat i)); [|lia].
    rewrite Nat2Z.id in Hfree. congruence.
Qed.

Lemma click_touches_one_free_cell_witness :
  read (board (handleClick (handleClick initial (Some 4)) (Some 12))) 4
  = Mark X.
Proof.
  destruct (click_touches_one_free_cell
              (handleClick initial (Some 4)) (Some 12) 4) as (H & _).
  rewrite H; [reflexivity | discriminate].
Defined.


(** *** The strategies pick an empty cell *)

Lemma getAIMove_random d rnd squares :
  is_easy d || (is_medium d && below_03 rnd) = true ->
  getAIMove d rnd squares
  = Some (getEmptySquares squares
            !! random_index rnd (length (getEmptySquares squares)),
          squares).
Proof.
  unfold getAIMove, getAIMove_fuel.
  unfold mbind at 1, Search_bind at 1, current, mret, Search_ret.
  destruct d; cbn [is_easy is_medium andb orb]; try discriminate.
  - reflexivity.
  - intros ->. reflexivity.
Qed.

Lemma getAIMove_minimax d rnd squares :
  is_easy d || (is_medium d && below_03 rnd) = false ->
  getAIMove d rnd squares = getAIMove Hard rnd squares.
Proof.
  unfold getAIMove, getAIMove_fuel.
  unfold mbind at 1, Search_bind at 1, current.
  unfold mbind at 2, Search_bind at 2.
  destruct d; cbn [is_easy is_medium andb orb]; try discriminate.
  - intros ->. reflexivity.
  - reflexivity.
Qed.

Lemma reference_choice_some squares :
  nulls_from 0 squares <> [] -> is_Some (reference_choice squares).
Proof.
  intros H.
  unfold reference_choice. rewrite TicTacToeFacts.empty_cells_nulls.
  set (l := nulls_from 0 squares) in *.
  set (mv := move_value squares).
  destruct l as [|m l]; [congruence|]. clearbody mv. clear H.
  assert (Hex : exists i, In i (m :: l) /\ mv i = maximum 0 (map mv (m :: l))).
  { simpl. generalize m. clear m.
    induction l as [|j l IH]; intros m; simpl.
    - exists m. auto.
    - destruct (IH (if mv m <? mv j then j else m)) as (i & Hi & Hv).
      exists i. split.
      + destruct Hi as [<-|Hi]; [|auto].
        destruct (mv m <? mv j); auto.
      + rewrite Hv. f_equal.
        destruct (Z.ltb_spec (mv m) (mv j)); lia. }
  destruct Hex as (i & Hi & Hv).
  destruct (List.filter _ (m :: l)) as [|c r] eqn:E.
  - exfalso. assert (Hin : In i []).
    { rewrite <- E. apply filter_In. split; [assumption|]. now apply Z.eqb_eq. }
    destruct Hin.
  - simpl. eauto.
Qed.

Lemma getAIMove_cases d rnd squares :
  (getEmptySquares squares <> [] ->
   exists m, getAIMove d rnd squares = Some (Some m, squares)
             /\ squares !! m = Some Null)
  /\ (getEmptySquares squares = [] ->
      getAIMove d rnd squares = Some (None, squares)).
Proof.
  rewrite TicTacToeFacts.getEmptySquares_nulls.
  destruct (is_easy d || (is_medium d && below_03 rnd)) eqn:E.
  - rewrite (getAIMove_random d rnd squares E).
    rewrite TicTacToeFacts.getEmptySquares_nulls.
    set (l := nulls_from 0 squares). split.
    + intros Hne.
      destruct (l !! random_index rnd (length l)) as [m|] eqn:El.
      * exists m. split; [reflexivity|].
        apply TicTacToeFacts.In_nulls, list_elem_of_In.
        eapply list_elem_of_lookup_2, El.
      * exfalso. apply lookup_ge_None in El. unfold random_index in El.
        assert (length l <> 0%nat) by (destruct l; simpl; congruence).
        pose proof (Nat.mod_upper_bound (pick rnd) (length l)). lia.
    + intros ->. reflexivity.
  - rewrite (getAIMove_minimax d rnd squares E).
    rewrite TicTacToeFacts.getAIMove_hard. split.
    + intros Hne. destruct (reference_choice_some _ Hne) as [m Hm].
      exists m. rewrite Hm. split; [reflexivity|].
      apply (TicTacToeFacts.reference_choice_least _ _ Hm).
    + intros Hnil. unfold reference_choice.
      rewrite TicTacToeFacts.empty_cells_nulls, Hnil. reflexivity.
Qed.

(** X23.  At every difficulty and for every draw, the AI's choice is an
    empty cell whenever the board has one, and [undefined] only when it has
    none; the board is left as it was. *)
Theorem ai_move_is_an_empty_cell d rnd squares :
  (getEmptySquares squares <> [] ->
   exists m, getAIMove d rnd squares = Some (Some m, squares)
             /\ squares !! m = Some Null)
  /\ (getEmptySquares squares = [] ->
      getAIMove d rnd squares = Some (None, squares)).
Proof. apply getAIMove_cases. Qed.

Lemma ai_move_is_an_empty_cell_witness :
  exists m,
    getAIMove Easy (mkRandom false 7) [Mark X; Null; Mark O; Null]
    = Some (Some m, [Mark X; Null; Mark O; Null])
    /\ [Mark X; Null; Mark O; Null] !! m = Some Null.
Proof.
  destruct (ai_move_is_an_empty_cell Easy (mkRandom false 7)
              [Mark X; Null; Mark O; Null]) as [H _].
  apply H. discriminate.
Defined.

(** *** The range of the scores, and the immediate win *)

Lemma fold_max_range lo hi (l : list Z) :
  Forall (fun v => lo <= v <= hi) l ->
  forall b, lo <= b <= hi -> lo <= fold_left Z.max l b <= hi.
Proof.
  induction 1 as [|v l Hv Hl IH]; intros b Hb; simpl; [assumption|].
  apply IH. lia.
Qed.

Lemma fold_min_range lo hi (l : list Z) :
  Forall (fun v => lo <= v <= hi) l ->
  forall b, lo <= b <= hi -> lo <= fold_left Z.min l b <= hi.
Proof.
  induction 1 as [|v l Hv Hl IH]; intros b Hb; simpl; [assumption|].
  apply IH. lia.
Qed.

Lemma maximum_range lo hi (l : list Z) :
  lo <= 0 <= hi -> Forall (fun v => lo <= v <= hi) l ->
  lo <= maximum 0 l <= hi.
Proof.
  intros H0 Hl. destruct Hl as [|v l Hv Hl]; [exact H0|].
  simpl. now apply fold_max_range.
Qed.

Lemma minimum_range lo hi (l : list Z) :
  lo <= 0 <= hi -> Forall (fun v => lo <= v <= hi) l ->
  lo <= minimum 0 l <= hi.
Proof.
  intros H0 Hl. destruct Hl as [|v l Hv Hl]; [exact H0|].
  simpl. now apply fold_min_range.
Qed.

Lemma value_range n :
  forall squares d turn,
    0 <= d ->
    d + Z.of_nat (length (nulls_from 0 squares)) <= 10 ->
    d - 10 <= value n squares d turn <= 10 - d.
Proof.
  induction n as [|n IH]; intros squares d turn Hd Hdepth;
    rewrite TicTacToeFacts.value_unfold;
    destruct (fst (checkWinner squares)) as [[[|]|]|]; try lia.
  rewrite TicTacToeFacts.empty_cells_nulls.
  assert (Hkids : forall p t,
            Forall (fun v => d - 10 <= v <= 10 - d)
              (map (fun i => value n (place squares i p) (d + 1) t)
                 (nulls_from 0 squares))).
  { intros p t. apply List.Forall_forall. intros v Hv.
    apply in_map_iff in Hv as (i & <- & Hi).
    apply TicTacToeFacts.In_nulls in Hi.
    pose proof (TicTacToeFacts.length_nulls_from_mark squares p 0 i Hi) as Hl.
    specialize (IH (place squares i p) (d + 1) t).
    unfold place in *. lia. }
  destruct turn; [apply maximum_range | apply minimum_range]; auto; lia.
Qed.

(** X24.  A search started at depth [d >= 0] on a board where [d] plus the
    number of empty cells is at most 10 (as on the nine cells of the game)
    returns a score between [d - 10] and [10 - d], and the board as it
    was. *)
Theorem minimax_score_range squares d isMaximizing :
  0 <= d ->
  d + Z.of_nat (length (getEmptySquares squares)) <= 10 ->
  exists v,
    minimax squares d isMaximizing = Some (Fin v, squares)
    /\ d - 10 <= v <= 10 - d.
Proof.
  intros Hd Hdepth. eexists. split; [apply TicTacToeFacts.minimax_value|].
  apply value_range; [assumption|].
  now rewrite <- TicTacToeFacts.getEmptySquares_nulls.
Qed.

Lemma minimax_score_range_witness :
  exists v,
    minimax [Mark X; Mark O; Null; Null; Mark X; Null; Null; Null; Mark O]
      1 true
    = Some (Fin v,
            [Mark X; Mark O; Null; Null; Mark X; Null; Null; Null; Mark O])
    /\ 1 - 10 <= v <= 10 - 1.
Proof.
  apply minimax_score_range; [lia|]. vm_compute. discriminate.
Defined.

Lemma move_value_win squares m :
  (length (nulls_from 0 squares) <= 10)%nat ->
  squares !! m = Some Null ->
  move_value squares m <= 10
  /\ (move_value squares m = 10
      <-> fst (checkWinner (place squares m O)) = Some (Win O)).
Proof.
  intros Hlen Hm. unfold move_value.
  pose proof (TicTacToeFacts.length_nulls_from_mark squares O 0 m Hm) as Hl.
  fold (place squares m O) in Hl.
  split.
  - apply (value_range _ (place squares m O) 0 false); lia.
  - rewrite TicTacToeFacts.value_unfold.
    destruct (fst (checkWinner (place squares m O))) as [[[|]|]|] eqn:E;
      try (split; [lia | discriminate]); [split; auto|].
    split; [|discriminate]. intros Hv. exfalso.
    destruct (length (empty_cells squares)) as [|n]; [lia|].
    rewrite TicTacToeFacts.empty_cells_nulls in Hv.
    assert (Hr : -9 <= minimum 0
              (map (fun i => value n (place (place squares m O) i X) (0 + 1) true)
                 (nulls_from 0 (place squares m O))) <= 9).
    { apply minimum_range; [lia|].
      apply List.Forall_forall. intros v Hin.
      apply in_map_iff in Hin as (i & <- & Hi).
      apply TicTacToeFacts.In_nulls in Hi.
      pose proof (TicTacToeFacts.length_nulls_from_mark
                    (place squares m O) X 0 i Hi) as Hl'.
      pose proof (value_range n (place (place squares m O) i X) (0 + 1) true)
        as Hv'.
      unfold place in *. lia. }
    lia.
Qed.

(** X25.  The hard strategy takes a win when there is one: on a board of
    at most ten empty cells, if marking some empty cell completes a line
    for O, then the cell it returns completes a line for O. *)
Theorem hard_takes_the_win rnd squares i :
  (length (getEmptySquares squares) <= 10)%nat ->
  squares !! i = Some Null ->
  fst (checkWinner (place squares i O)) = Some (Win O) ->
  exists m,
    getAIMove Hard rnd squares = Some (Some m, squares)
    /\ squares !! m = Some Null
    /\ fst (checkWinner (place squares m O)) = Some (Win O).
Proof.
  rewrite TicTacToeFacts.getEmptySquares_nulls. intros Hlen Hi Hwin.
  assert (Hne : nulls_from 0 squares <> []).
  { apply TicTacToeFacts.In_nulls in Hi. intros E. now rewrite E in Hi. }
  destruct (reference_choice_some _ Hne) as [m Hm].
  exists m. rewrite TicTacToeFacts.getAIMove_hard, Hm.
  split; [reflexivity|].
  destruct (TicTacToeFacts.reference_choice_least _ _ Hm) as (Hnull & Hbest & _).
  split; [exact Hnull|].
  destruct (move_value_win squares i Hlen Hi) as [_ Hiff].
  destruct (move_value_win squares m Hlen Hnull) as [Hle Hiff'].
  apply Hiff'. apply Hiff in Hwin. specialize (Hbest i Hi). lia.
Qed.

(** O holds cells 4 and 6; cell 2 completes the diagonal. *)
Lemma hard_takes_the_win_witness :
  exists m,
    getAIMove Hard (mkRandom false 0)
      [Mark X; Mark X; Null; Null; Mark O; Null; Mark O; Null; Mark X]
    = Some (Some m,
            [Mark X; Mark X; Null; Null; Mark O; Null; Mark O; Null; Mark X])
    /\ [Mark X; Mark X; Null; Null; Mark O; Null; Mark O; Null; Mark X] !! m
       = Some Null
    /\ fst (checkWinner
              (place
                 [Mark X; Mark X; Null; Null; Mark O; Null; Mark O; Null; Mark X]
                 m O))
       = Some (Win O).
Proof.
  apply (hard_takes_the_win (mkRandom false 0)
           [Mark X; Mark X; Null; Null; Mark O; Null; Mark O; Null; Mark X]
           2%nat).
  - vm_compute. lia.
  - reflexivity.
  - reflexivity.
Defined.

(** *** What holds of every state on a run *)

Lemma checkWinner_no_line squares :
  fst (checkWinner squares) = None -> snd (checkWinner squares) = None.
Proof.
  unfold checkWinner.
  destruct (first_line squares WINNING_COMBINATIONS) as [[p line]|];
    [discriminate | reflexivity].
Qed.

Lemma handleClick_agrees s index : agrees s -> agrees (handleClick s index).
Proof.
  intros [Hw Hl]. unfold handleClick.
  destruct (truthy _) ; cbn [orb]; [split; assumption|].
  destruct (winner s) as [r|] eqn:Hs.
  { rewrite bool_decide_eq_true_2 by eauto. rewrite <- Hs in Hw.
    split; assumption. }
  rewrite bool_decide_eq_false_2 by (intros [r Hr]; discriminate).
  destruct (checkWinner (store_key _ _ _)) as [[w|] line] eqn:E;
    unfold agrees; cbn [board winner winningLine]; rewrite E; cbn [fst snd].
  - split; reflexivity.
  - split; [reflexivity|].
    rewrite Hl, checkWinner_no_line by (symmetry; exact Hw).
    pose proof (checkWinner_no_line (store_key (board s) index
                                       (Mark (currentPlayer s)))) as Hn.
    rewrite E in Hn. symmetry. apply Hn. reflexivity.
Qed.

Lemma count_mark_insert p q (squares : list Cell) i c :
  squares !! i = Some c -> truthy c = false ->
  count_mark p (<[i := Mark q]> squares)
  = (count_mark p squares + if Player_eqb q p then 1 else 0)%nat.
Proof.
  unfold count_mark. revert i.
  induction squares as [|cell rest IH]; intros i; [discriminate|].
  destruct i as [|i]; simpl.
  - intros [= ->] Hc. destruct c; try discriminate; simpl;
      destruct (Player_eqb q p); simpl; lia.
  - intros Hi Hc. specialize (IH i Hi Hc).
    destruct (Cell_eqb cell (Mark p)); simpl; rewrite IH; lia.
Qed.

(** A click on one of the nine cells either changes nothing or puts the
    mark of the player to move on a cell that held none. *)
Lemma handleClick_on_board s index :
  0 <= index <= 8 ->
  length (board s) = 9%nat ->
  handleClick s (Some index) = s
  \/ (winner s = None
      /\ exists c,
           board s !! Z.to_nat index = Some c
           /\ truthy c = false
           /\ board (handleClick s (Some index))
              = <[Z.to_nat index := Mark (currentPlayer s)]> (board s)
           /\ ((winner (handleClick s (Some index)) = None
                /\ currentPlayer (handleClick s (Some index))
                   = other (currentPlayer s))
               \/ exists r, winner (handleClick s (Some index)) = Some r)).
Proof.
  intros Hindex Hlen. unfold handleClick, read_key, store_key.
  destruct (Z.leb_spec 0 index); [|lia].
  destruct (board s !! Z.to_nat index) as [c|] eqn:Hc.
  2:{ apply lookup_ge_None in Hc. lia. }
  assert (Hread : read (board s) (Z.to_nat index) = c)
    by (unfold read; now rewrite Hc).
  rewrite Hread.
  destruct (truthy c) eqn:Ht; cbn [orb]; [left; reflexivity|].
  destruct (winner s) as [r|] eqn:Hw.
  { rewrite bool_decide_eq_true_2 by eauto. left. reflexivity. }
  rewrite bool_decide_eq_false_2 by (intros [r Hr]; discriminate).
  right. split; [reflexivity|]. exists c.
  split; [first [exact Hc | reflexivity]|].
  split; [first [exact Ht | reflexivity]|].
  rewrite TicTacToeFacts.store_in_range by lia.
  destruct (checkWinner _) as [[w|] line];
    cbn [board winner currentPlayer]; eauto.
Qed.

Lemma handleClick_sound s index :
  0 <= index <= 8 -> sound s -> sound (handleClick s (Some index)).
Proof.
  intros Hindex (Hlen & Hag & Hturn).
  pose proof (handleClick_agrees s (Some index) Hag) as Hag'.
  destruct (handleClick_on_board s index Hindex Hlen)
    as [-> | (Hw & c & Hc & Ht & Hb & Hnext)];
    [exact (conj Hlen (conj Hag Hturn))|].
  split; [rewrite Hb, length_insert; exact Hlen|].
  split; [exact Hag'|].
  destruct Hturn as [_ Hturn]. specialize (Hturn Hw).
  unfold in_turn. rewrite Hb.
  rewrite !(count_mark_insert _ _ _ _ c Hc Ht).
  set (cx := count_mark X (board s)) in *.
  set (co := count_mark O (board s)) in *.
  cbv zeta.
  destruct Hturn as [[Hp He] | [Hp He]]; rewrite Hp in *;
    cbn [Player_eqb other] in *.
  - split; [lia|]. intros Hnone.
    destruct Hnext as [[_ Hp'] | [r Hr]]; [|congruence].
    right. split; [exact Hp' | lia].
  - split; [lia|]. intros Hnone.
    destruct Hnext as [[_ Hp'] | [r Hr]]; [|congruence].
    left. split; [exact Hp' | lia].
Qed.

Lemma resetGame_sound s : sound (resetGame s).
Proof.
  unfold sound, agrees, in_turn, resetGame. simpl.
  repeat split; auto.
Qed.

Lemma aiEffect_sound s rnd : sound s -> sound (aiEffect s rnd).
Proof.
  intros Hs. unfold aiEffect.
  destruct (is_ai (gameMode s) && Player_eqb (currentPlayer s) O
            && negb (bool_decide (is_Some (winner s)))) eqn:E;
    [|exact Hs].
  apply andb_true_iff in E as [_ E]. apply negb_true_iff in E.
  assert (Hw : winner s = None).
  { destruct (winner s) as [r|]; [|reflexivity].
    rewrite bool_decide_eq_true_2 in E by eauto. discriminate. }
  pose proof Hs as (Hlen & [Hag _] & _).
  rewrite Hw in Hag. symmetry in Hag.
  apply TicTacToeFacts.nonterminal_has_empty in Hag.
  rewrite <- TicTacToeFacts.getEmptySquares_nulls in Hag.
  destruct (getAIMove_cases (difficulty s) rnd (board s)) as [H _].
  destruct (H Hag) as (m & -> & Hm).
  apply lookup_lt_Some in Hm.
  apply handleClick_sound; [lia | exact Hs].
Qed.

Lemma step_sound s e : on_board e -> sound s -> sound (step s e).
Proof.
  intros He Hs. destruct e as [index rnd| | |m|d]; simpl in *.
  - unfold click.
    pose proof (handleClick_sound s index He Hs) as Hs'.
    destruct (Player_eqb _ _); [exact Hs'|].
    apply aiEffect_sound, Hs'.
  - apply resetGame_sound.
  - exact Hs.
  - apply resetGame_sound.
  - apply resetGame_sound.
Qed.

Lemma run_sound events : Forall on_board events -> sound (run events).
Proof.
  unfold run.
  assert (H0 : sound initial) by apply (resetGame_sound initial).
  revert H0. generalize initial.
  intros s Hs Hev. revert s Hs.
  induction Hev as [|e events He Hev IH]; intros s Hs; simpl; [assumption|].
  apply IH, step_sound; assumption.
Qed.

(** X26.  After every sequence of clicks on the nine cells, new games,
    statistics resets and changes of mode or difficulty, in either mode,
    the board has nine cells and the recorded result and winning line are
    exactly what [checkWinner] says of the board. *)
Theorem recorded_result_is_the_boards events :
  Forall on_board events ->
  length (board (run events)) = 9%nat
  /\ winner (run events) = fst (checkWinner (board (run events)))
  /\ winningLine (run events) = snd (checkWinner (board (run events))).
Proof.
  intros H. destruct (run_sound events H) as (Hlen & [Hw Hl] & _). auto.
Qed.

Lemma recorded_result_is_the_boards_witness :
  winner (run [SelectMode AI; Click 4 (mkRandom true 3); NewGame;
               Click 0 (mkRandom false 1); ClearStats])
  = fst (checkWinner
           (board (run [SelectMode AI; Click 4 (mkRandom true 3); NewGame;
                        Click 0 (mkRandom false 1); ClearStats]))).
Proof.
  apply recorded_result_is_the_boards.
  repeat constructor; simpl; lia.
Defined.

(** X27.  On the same runs the marks alternate, X first: X has as many
    marks as O or one more, and while the game is on it is X's turn exactly
    when they have as many. *)
Theorem marks_alternate events :
  Forall on_board events ->
  let cx := count_mark X (board (run events)) in
  let co := count_mark O (board (run events)) in
  (cx = co \/ cx = S co)
  /\ (winner (run events) = None ->
      (currentPlayer (run events) = X /\ cx = co)
      \/ (currentPlayer (run events) = O /\ cx = S co)).
Proof.
  intros H. destruct (run_sound events H) as (_ & _ & Hturn). exact Hturn.
Qed.

Lemma marks_alternate_witness :
  count_mark X (board (run [Click 4 (mkRandom false 0);
                            Click 4 (mkRandom false 0);
                            Click 2 (mkRandom false 0)]))
  = count_mark O (board (run [Click 4 (mkRandom false 0);
                              Click 4 (mkRandom false 0);
                              Click 2 (mkRandom false 0)]))
  \/ count_mark X (board (run [Click 4 (mkRandom false 0);
                               Click 4 (mkRandom false 0);
                               Click 2 (mkRandom false 0)]))
     = S (count_mark O (board (run [Click 4 (mkRandom false 0);
                                    Click 4 (mkRandom false 0);
                                    Click 2 (mkRandom false 0)]))).
Proof.
  apply (marks_alternate [Click 4 (mkRandom false 0);
                          Click 4 (mkRandom false 0);
                          Click 2 (mkRandom false 0)]).
  repeat constructor; simpl; lia.
Defined.

End TicTacToeMore.
